(** * The teller proxy: connection lifecycle manager

    A shallow embedding of package [proxy] (type [Proxy] and its methods
    [New], [Run], [Shutdown], [handleConnection], [newSession], [strand],
    [write], [writeWithContext], [openStream], [setSession], [closeSession]
    and [ResetPingTimer]).

    - The methods that run under the mutex are embedded as computations in
      a state monad with Go's three ways of not returning a value: a normal
      return, a run-time panic, and a goroutine that blocks.
    - The goroutines of [Run] are embedded as step functions over the events
      a scheduler can pick; a select statement is a choice between the
      events of its ready cases.  Time is abstracted: a timer may fire at any
      moment after it has been armed. *)

From stdpp Require Import base option list gmap strings.
From Stdlib Require Import ZArith Lia.

Open Scope Z_scope.
Open Scope string_scope.

(** ** Values of the surrounding packages *)

(** Go's [error]: the value [nil] is [None], a non-nil error is its text. *)
Definition error := string.
Definition errors_New (s : string) : error := s.
Definition io_EOF : error := "EOF".

(** Opaque handles for values the proxy only passes along. *)
Definition Conn := nat.          (* net.Conn *)
Definition Messager := nat.      (* daemon.Messager *)
Definition Context := nat.       (* context.Context *)
Definition Handler := nat.       (* func(daemon.Messager) *)
Definition SessionPtr := nat.    (* *daemon.Session, non-nil *)
Definition TimerPtr := nat.      (* *time.Timer, non-nil *)

(** Modelled from the spec: package [daemon] ([daemon.Session],
    [daemon.NewSession]) and [net.Conn] are not among the sources.  The spec
    gives the session the operations [run() -> error],
    [write(message) -> error], [writeWithContext(ctx, message) -> error],
    [subscribe(handler) -> id], [unsubscribe(id)] and [close()], and the
    authenticator [authenticate(rawConnection) -> (session, error)].  They
    act on a state [W] of which the proxy knows nothing; every result below
    that is stated for a [Daemon W] holds for any implementation. *)
Class Daemon (W : Type) := {
  daemon_NewSession : Conn → W → (error + SessionPtr) * W;
  Session_Run : SessionPtr → W → option error * W;
  Session_Write : SessionPtr → Messager → W → option error * W;
  Session_WriteWithContext : SessionPtr → Context → Messager → W → option error * W;
  Session_Sub : SessionPtr → Handler → W → Z * W;
  Session_Unsub : SessionPtr → Z → W → W;
  Session_Close : SessionPtr → W → W;
  Conn_Close : Conn → W → W;
}.

(** ** Timers *)

(** A [time.Timer]: [armed] while its deadline is pending, [tick] while a
    value sits unread in its channel [C] (capacity one). *)
Record Timer := mkTimer { armed : bool; tick : bool }.

Definition timer_new : Timer := mkTimer true false.
(** The runtime fires an armed timer: it sends on [C] and disarms. *)
Definition timer_fire (t : Timer) : Timer :=
  if armed t then mkTimer false true else t.
(** [<-t.C] takes the tick. *)
Definition timer_recv (t : Timer) : option Timer :=
  if tick t then Some (mkTimer (armed t) false) else None.
(** [t.Reset(d)] re-arms; it does not empty [C]. *)
Definition timer_reset (t : Timer) : Timer := mkTimer true (tick t).

(** ** The proxy *)

Inductive LogLine :=
  | Debugln (s : string) (arg : option Z)
  | Println (s : string)
  | Printf (s : string) (c : Conn).

(** The fields of [Proxy] that its methods read or write.  [mu] is the
    embedded [sync.Mutex] ([true] when held); [quit] is [true] once the
    channel has been closed; [connC] and [reqC] are unbuffered and hold
    nothing. *)
Record Proxy := mkProxy {
  withoutTeller : bool;
  ln : option nat;
  quit : bool;
  sn : option SessionPtr;
  pingTimer : option TimerPtr;
  mu : bool;
}.

Definition set_ln (v : option nat) (p : Proxy) : Proxy :=
  mkProxy (withoutTeller p) v (quit p) (sn p) (pingTimer p) (mu p).
Definition set_quit (v : bool) (p : Proxy) : Proxy :=
  mkProxy (withoutTeller p) (ln p) v (sn p) (pingTimer p) (mu p).
Definition set_sn (v : option SessionPtr) (p : Proxy) : Proxy :=
  mkProxy (withoutTeller p) (ln p) (quit p) v (pingTimer p) (mu p).
Definition set_pingTimer (v : option TimerPtr) (p : Proxy) : Proxy :=
  mkProxy (withoutTeller p) (ln p) (quit p) (sn p) v (mu p).
Definition set_mu (v : bool) (p : Proxy) : Proxy :=
  mkProxy (withoutTeller p) (ln p) (quit p) (sn p) (pingTimer p) v.

(** What a statement can come to. *)
Inductive Res (A : Type) :=
  | Ok (a : A)
  | Panic (msg : string)
  | Block.
Arguments Ok {A} a.
Arguments Panic {A} msg.
Arguments Block {A}.

Definition nil_deref : string :=
  "invalid memory address or nil pointer dereference".

(** The whole store: the proxy, the timers of package [time], the state
    of package [daemon], and what has been logged. *)
Record St (W : Type) := mkSt {
  px : Proxy;
  timers : gmap TimerPtr Timer;
  world : W;
  logged : list LogLine;
}.
Arguments mkSt {W} _ _ _ _.
Arguments px {W} _.
Arguments timers {W} _.
Arguments world {W} _.
Arguments logged {W} _.

Definition M (W A : Type) : Type := St W → Res A * St W.

Section Monad.
Context {W : Type}.

Definition ret {A} (a : A) : M W A := λ s, (Ok a, s).
Definition bind {A B} (k : A → M W B) (c : M W A) : M W B := λ s,
  match c s with
  | (Ok a, s') => k a s'
  | (Panic msg, s') => (Panic msg, s')
  | (Block, s') => (Block, s')
  end.
#[global] Instance M_ret : MRet (M W) := @ret.
#[global] Instance M_bind : MBind (M W) := @bind.
Definition panic {A} (msg : string) : M W A := λ s, (Panic msg, s).
Definition block {A} : M W A := λ s, (Block, s).

(** [defer d] in front of a body: [d] runs when the body returns and
    when it panics, not when the goroutine is stuck in it. *)
Definition defer {A} (d : M W unit) (body : M W A) : M W A := λ s,
  match body s with
  | (Ok a, s') =>
      match d s' with
      | (Ok _, s'') => (Ok a, s'')
      | (Panic msg, s'') => (Panic msg, s'')
      | (Block, s'') => (Block, s'')
      end
  | (Panic msg, s') =>
      match d s' with
      | (Ok _, s'') => (Panic msg, s'')
      | (Panic msg', s'') => (Panic msg', s'')
      | (Block, s'') => (Block, s'')
      end
  | (Block, s') => (Block, s')
  end.

Definition get_px : M W Proxy := λ s, (Ok (px s), s).
Definition modify_px (f : Proxy → Proxy) : M W unit := λ s,
  (Ok tt, mkSt (f (px s)) (timers s) (world s) (logged s)).
Definition lift_world {A} (f : W → A * W) : M W A := λ s,
  let '(a, w) := f (world s) in
  (Ok a, mkSt (px s) (timers s) w (logged s)).
Definition modify_world (f : W → W) : M W unit := λ s,
  (Ok tt, mkSt (px s) (timers s) (f (world s)) (logged s)).
Definition modify_timers (f : gmap TimerPtr Timer → gmap TimerPtr Timer) : M W unit :=
  λ s, (Ok tt, mkSt (px s) (f (timers s)) (world s) (logged s)).
Definition log_line (l : LogLine) : M W unit := λ s,
  (Ok tt, mkSt (px s) (timers s) (world s) (logged s ++ [l])).
End Monad.

Section Operations.
Context {W : Type} `{!Daemon W}.

(** *** The mutex *)

(** [px.Lock()]: a goroutine that finds the mutex held waits. *)
Definition Lock : M W unit :=
  p ← get_px;
  if mu p then block else modify_px (set_mu true).

(** [px.Unlock()]: unlocking a mutex that is not held is a fatal error. *)
Definition Unlock : M W unit :=
  p ← get_px;
  if mu p then modify_px (set_mu false)
  else panic "sync: unlock of unlocked mutex".

(** *** Calls through the session pointer

    [px.sn] is a [*daemon.Session]; a method called through the nil
    pointer reads the fields of no session. *)
Definition call_Write (sp : option SessionPtr) (m : Messager) : M W (option error) :=
  match sp with
  | Some p => lift_world (Session_Write p m)
  | None => panic nil_deref
  end.

Definition call_WriteWithContext (sp : option SessionPtr) (cxt : Context)
    (m : Messager) : M W (option error) :=
  match sp with
  | Some p => lift_world (Session_WriteWithContext p cxt m)
  | None => panic nil_deref
  end.

Definition call_Sub (sp : option SessionPtr) (f : Handler) : M W Z :=
  match sp with
  | Some p => lift_world (Session_Sub p f)
  | None => panic nil_deref
  end.

Definition call_Unsub (sp : option SessionPtr) (id : Z) : M W unit :=
  match sp with
  | Some p => modify_world (Session_Unsub p id)
  | None => panic nil_deref
  end.

Definition call_Close (sp : option SessionPtr) : M W unit :=
  match sp with
  | Some p => modify_world (Session_Close p)
  | None => panic nil_deref
  end.

(** *** write, writeWithContext, openStream *)

(** [func (px *Proxy) write(m daemon.Messager) (err error)].  The named
    result [err] starts as nil; the nil test assigns it and falls
    through to the call. *)
Definition write (m : Messager) : M W (option error) :=
  Lock;;
  defer Unlock (
    p ← get_px;
    let err := if sn p is None
               then Some (errors_New "write failed, session is nil")
               else None in
    _ ← call_Write (sn p) m;
    mret err).

(** [func (px *Proxy) writeWithContext(cxt, m) error] *)
Definition writeWithContext (cxt : Context) (m : Messager) : M W (option error) :=
  Lock;;
  defer Unlock (
    p ← get_px;
    if sn p is None
    then mret (Some (errors_New "write failed, session is nil"))
    else call_WriteWithContext (sn p) cxt m).

(** [type closeStream func()]: a func value, nil when [None]. *)
Definition closeStream : Type := option (M W unit).

(** Calling a func value; calling nil panics. *)
Definition call_closeStream (cf : closeStream) : M W unit :=
  match cf with
  | Some body => body
  | None => panic nil_deref
  end.

(** The closure [cf] of [openStream], with its captured [id]. *)
Definition openStream_cf (id : Z) : M W unit :=
  defer (log_line (Debugln "Close stream:" (Some id))) (
    Lock;;
    p ← get_px;
    (if sn p is None then mret tt else call_Unsub (sn p) id);;
    Unlock).

(** [func (px *Proxy) openStream(f) (int, closeStream, error)] *)
Definition openStream (f : Handler) : M W (Z * closeStream * option error) :=
  Lock;;
  defer Unlock (
    p ← get_px;
    if sn p is None
    then mret (0, Some (mret tt), Some (errors_New "session is nil"))
    else
      id ← call_Sub (sn p) f;
      log_line (Debugln "Open stream:" (Some id));;
      mret (id, Some (openStream_cf id), None)).

(** [func (px *Proxy) setSession(sn *daemon.Session)] *)
Definition setSession (v : option SessionPtr) : M W unit :=
  Lock;;
  modify_px (set_sn v);;
  Unlock.

(** [func (px *Proxy) closeSession()] *)
Definition closeSession : M W unit :=
  Lock;;
  p ← get_px;
  (if sn p is None then mret tt else call_Close (sn p));;
  Unlock.

(** *** The ping timer *)

(** [time.NewTimer(d)]: a fresh armed timer. *)
Definition time_NewTimer : M W TimerPtr := λ s,
  let t := fresh (dom (timers s)) in
  (Ok t, mkSt (px s) (<[t := timer_new]> (timers s)) (world s) (logged s)).

(** [t.Reset(d)] through a [*time.Timer]; [Reset] reads [t.r]. *)
Definition call_Reset (tp : option TimerPtr) : M W unit :=
  match tp with
  | Some t => modify_timers (alter timer_reset t)
  | None => panic nil_deref
  end.

(** [func (px *Proxy) ResetPingTimer()] *)
Definition ResetPingTimer : M W unit :=
  p ← get_px;
  call_Reset (pingTimer p).

(** [<-t.C] through a [*time.Timer]: waits while [C] is empty. *)
Definition recv_C (tp : option TimerPtr) : M W unit :=
  match tp with
  | Some t => λ s,
      match timers s !! t ≫= timer_recv with
      | Some tm => (Ok tt, mkSt (px s) (<[t := tm]> (timers s)) (world s) (logged s))
      | None => (Block, s)
      end
  | None => panic nil_deref
  end.

(** The runtime's side of a timer: the deadline passes. *)
Definition runtime_fire (tp : option TimerPtr) : M W unit :=
  match tp with
  | Some t => modify_timers (alter timer_fire t)
  | None => mret tt
  end.

(** *** newSession *)

(** Which case of the select in [newSession] is taken. *)
Inductive Race := RunFirst | TimerFirst.

(** [newSession], lines 255-273: the handshake; on success the session is
    registered, the ping timer armed and [sn.Run()] started on its own
    goroutine.  The result is the session, or [None] when [newSession] has
    returned already (its deferred log line included). *)
Definition newSession_establish (conn : Conn) : M W (option SessionPtr) :=
  log_line (Debugln "New session" None);;
  r ← lift_world (daemon_NewSession conn);
  match r with
  | inl err =>
      log_line (Println err);;
      log_line (Debugln "Session closed" None);;
      mret None
  | inr s =>
      setSession (Some s);;
      t ← time_NewTimer;
      modify_px (set_pingTimer (Some t));;
      mret (Some s)
  end.

(** [newSession], lines 275-285: the select between [errC] and
    [px.pingTimer.C], [wg.Wait()], and the clearing of the slot.  Entering
    the select evaluates [px.pingTimer.C], whichever case is taken.
    [sn.Run()] acts on the daemon's state when it returns. *)
Definition newSession_await (conn : Conn) (s : SessionPtr) (race : Race) : M W unit :=
  p ← get_px;
  (if pingTimer p is None then panic nil_deref else mret tt);;
  match race with
  | RunFirst =>
      err ← lift_world (Session_Run s);
      match err with
      | Some e => if decide (e = io_EOF) then mret tt else log_line (Println e)
      | None => mret tt
      end
  | TimerFirst =>
      recv_C (pingTimer p);;
      modify_world (Conn_Close conn);;
      _ ← lift_world (Session_Run s);
      mret tt
  end;;
  setSession None;;
  log_line (Debugln "Session closed" None).

End Operations.

(** ** New *)

Record Config := mkConfig {
  SrvAddr : string;
  HTTPSrvAddr : string;
  HTTPSSrvAddr : string;
  AutoTLSHost : string;
  TLSCert : string;
  TLSKey : string;
  WithoutTeller : bool;
}.

Definition is_empty (s : string) : bool := bool_decide (s = "").

(** [func New(log, cfg, auth) *Proxy]: the guards panic, otherwise every
    field that is not set from [cfg] has its zero value. *)
Definition New (cfg : Config) (auth_is_nil : bool) : Res Proxy :=
  if auth_is_nil then Panic "Auth is nil"
  else if is_empty (HTTPSrvAddr cfg) && is_empty (HTTPSSrvAddr cfg)
  then Panic "at least one of -http-service-addr, -https-service-addr must be set"
  else if negb (is_empty (HTTPSSrvAddr cfg)) && is_empty (AutoTLSHost cfg)
          && (is_empty (TLSCert cfg) || is_empty (TLSKey cfg))
  then Panic "when using -tls, either -auto-tls-host or both -tls-cert and -tls-key must be set"
  else if (is_empty (TLSCert cfg) && negb (is_empty (TLSKey cfg)))
          || (negb (is_empty (TLSCert cfg)) && is_empty (TLSKey cfg))
  then Panic "-tls-cert and -tls-key must be set or unset together"
  else if negb (is_empty (AutoTLSHost cfg))
          && (negb (is_empty (TLSKey cfg)) || negb (is_empty (TLSCert cfg)))
  then Panic "either use -auto-tls-host or both -tls-key and -tls-cert"
  else if is_empty (HTTPSSrvAddr cfg)
          && (negb (is_empty (AutoTLSHost cfg)) || negb (is_empty (TLSKey cfg))
              || negb (is_empty (TLSCert cfg)))
  then Panic "-auto-tls-host or -tls-key or -tls-cert is set but -tls is not enabled"
  else Ok (mkProxy (WithoutTeller cfg) None false None None false).

(** The store in which a proxy starts: no timer exists, nothing is logged. *)
Definition start {W} (p : Proxy) (w : W) : St W := mkSt p ∅ w [].

(** ** A session layer to run the proxy against *)

(** Modelled from the spec: an implementation of the operations of
    [daemon.Session] and [daemon.NewSession], which are not among the
    sources.  The multiplexer [handlers] maps each active subscription id to
    its handler, belongs to the proxy and is shared by all its sessions; a
    new id is one that no active subscription has.  A handshake succeeds for
    the peers in [trusted]; a write on a session that was closed, or whose
    connection was, fails. *)
Record MuxWorld := mkMuxWorld {
  handlers : gmap Z Handler;
  nextId : Z;
  trusted : list Conn;
  session_conn : list Conn;        (* session [p] serves [session_conn !! p] *)
  closed_sessions : list SessionPtr;
  closed_conns : list Conn;
  sent : list (SessionPtr * Messager);
}.

Definition mux_broken (p : SessionPtr) (w : MuxWorld) : bool :=
  bool_decide (p ∈ closed_sessions w)
  || match session_conn w !! p with
     | Some c => bool_decide (c ∈ closed_conns w)
     | None => true
     end.

Definition mux_send (p : SessionPtr) (m : Messager) (w : MuxWorld)
    : option error * MuxWorld :=
  if mux_broken p w then (Some "session closed", w)
  else (None, mkMuxWorld (handlers w) (nextId w) (trusted w) (session_conn w)
                (closed_sessions w) (closed_conns w) (sent w ++ [(p, m)])).

#[global] Instance mux_daemon : Daemon MuxWorld := {|
  daemon_NewSession c w :=
    if bool_decide (c ∈ trusted w)
    then (inr (length (session_conn w)),
          mkMuxWorld (handlers w) (nextId w) (trusted w) (session_conn w ++ [c])
            (closed_sessions w) (closed_conns w) (sent w))
    else (inl "handshake failed", w);
  Session_Run p w :=
    (if mux_broken p w then Some "use of closed network connection"
     else Some io_EOF, w);
  Session_Write := mux_send;
  Session_WriteWithContext p _ := mux_send p;
  Session_Sub p f w :=
    (nextId w,
     mkMuxWorld (<[nextId w := f]> (handlers w)) (nextId w + 1) (trusted w)
       (session_conn w) (closed_sessions w) (closed_conns w) (sent w));
  Session_Unsub p id w :=
    mkMuxWorld (delete id (handlers w)) (nextId w) (trusted w) (session_conn w)
      (closed_sessions w) (closed_conns w) (sent w);
  Session_Close p w :=
    mkMuxWorld (handlers w) (nextId w) (trusted w) (session_conn w)
      (p :: closed_sessions w) (closed_conns w) (sent w);
  Conn_Close c w :=
    mkMuxWorld (handlers w) (nextId w) (trusted w) (session_conn w)
      (closed_sessions w) (c :: closed_conns w) (sent w);
|}.

(** A world in which the peers 1 and 2 are trusted. *)
Definition mux0 : MuxWorld := mkMuxWorld ∅ 0 [1%nat; 2%nat] [] [] [] [].

Definition proxy0 : Proxy := mkProxy false None false None None false.

(** ** The goroutines of Run *)

(** Where [handleConnection] stands. *)
Inductive HandlerPc :=
  | HOuter                                  (* at the outer select *)
  | HInner (conn : Conn)                    (* at the inner select *)
  | HExec (conn : Conn)                     (* in [exec(conn)], handshake pending *)
  | HSession (conn : Conn) (s : SessionPtr) (* in [exec(conn)], at the select of newSession *)
  | HBack                                   (* [exec(conn)] has returned *)
  | HEnd.                                   (* returned, or never started *)

(** Where the accept loop stands. *)
Inductive AcceptorPc :=
  | AAccept                                 (* in [px.ln.Accept()] *)
  | AOffer (conn : Conn)                    (* at the select on [px.connC <- conn] *)
  | AEnd.

Inductive FunnelPc := FServe | FEnd.
(** Where the worker of the HTTP layer stands. *)
Inductive HttpPc :=
  | HttpServe                 (* in [px.httpServ.Run()] *)
  | HttpSend (err : error)    (* the select took [default]: at [errC <- err] *)
  | HttpEnd.

(** The proxy while [Run] is under way: the store, the goroutines,
    the locals of [handleConnection] ([execFuncC], one buffered slot) and of
    [Run] ([errC], [wg], [done]), what [Run] has returned, and the
    connections the two loops have closed. *)
Record Sys (W : Type) := mkSys {
  store : St W;
  handler : HandlerPc;
  acceptor : AcceptorPc;
  funnel : FunnelPc;
  http : HttpPc;
  execFuncC : bool;
  errC : option error;
  wg : nat;
  done : bool;
  returned : option (option error);
  closed : list Conn;
}.
Arguments mkSys {W} _ _ _ _ _ _ _ _ _ _ _.
Arguments store {W} _.
Arguments handler {W} _.
Arguments acceptor {W} _.
Arguments funnel {W} _.
Arguments http {W} _.
Arguments execFuncC {W} _.
Arguments errC {W} _.
Arguments wg {W} _.
Arguments done {W} _.
Arguments returned {W} _.
Arguments closed {W} _.

(** What a scheduler can pick next. *)
Inductive Call :=
  | CWrite (m : Messager)
  | CWriteWithContext (cxt : Context) (m : Messager)
  | COpenStream (f : Handler)
  | CCloseStream (id : Z)
  | CResetPingTimer.

Inductive Event :=
  | EAccept (c : Conn)       (* [px.ln.Accept()] returns a connection *)
  | EAcceptErr               (* [px.ln.Accept()] returns an error *)
  | EOfferTimeout            (* acceptor: [case <-time.After(1 * time.Second)] *)
  | EHandoff                 (* [px.connC <- conn] meets [conn := <-px.connC] *)
  | EHandlerQuit             (* handler, outer select: [case <-px.quit] *)
  | EGraceTimeout            (* handler, inner select: [case <-time.After(2 * time.Second)] *)
  | ETakeExec                (* handler, inner select: [case exec := <-execFuncC] *)
  | EEstablish               (* newSession, up to its select *)
  | EFire (t : TimerPtr)     (* the runtime fires a timer *)
  | ESessionEnd (r : Race)   (* newSession, from its select to its return *)
  | ERecycle                 (* handler: the select on quit after [exec(conn)] *)
  | EFunnelQuit              (* funnel worker: [case <-px.quit] *)
  | EHttpReturn (r : option error)
      (* [px.httpServ.Run()] returns; on an error, the select on [px.quit] *)
  | EHttpSend                (* HTTP worker: [errC <- err], once [errC] has room *)
  | EJoin                    (* [wg.Wait()] returns and [done] is closed *)
  | ERunReturn (by_done : bool)     (* the select at the end of Run *)
  | EShutdown                (* a call of Shutdown *)
  | ECall (c : Call).        (* a call from the gateway *)

Inductive Step (A : Type) :=
  | Next (a : A)
  | Disabled                 (* the event cannot happen now *)
  | Crashed.                 (* a goroutine panicked: the process is gone *)
Arguments Next {A} a.
Arguments Disabled {A}.
Arguments Crashed {A}.

Section Goroutines.
Context {W : Type} `{!Daemon W}.

Definition with_store (st : St W) (y : Sys W) : Sys W :=
  mkSys st (handler y) (acceptor y) (funnel y) (http y) (execFuncC y)
    (errC y) (wg y) (done y) (returned y) (closed y).
Definition with_handler (h : HandlerPc) (y : Sys W) : Sys W :=
  mkSys (store y) h (acceptor y) (funnel y) (http y) (execFuncC y)
    (errC y) (wg y) (done y) (returned y) (closed y).
Definition with_acceptor (a : AcceptorPc) (y : Sys W) : Sys W :=
  mkSys (store y) (handler y) a (funnel y) (http y) (execFuncC y)
    (errC y) (wg y) (done y) (returned y) (closed y).
Definition with_funnel (f : FunnelPc) (y : Sys W) : Sys W :=
  mkSys (store y) (handler y) (acceptor y) f (http y) (execFuncC y)
    (errC y) (wg y) (done y) (returned y) (closed y).
Definition with_http (h : HttpPc) (y : Sys W) : Sys W :=
  mkSys (store y) (handler y) (acceptor y) (funnel y) h (execFuncC y)
    (errC y) (wg y) (done y) (returned y) (closed y).
Definition with_execFuncC (b : bool) (y : Sys W) : Sys W :=
  mkSys (store y) (handler y) (acceptor y) (funnel y) (http y) b
    (errC y) (wg y) (done y) (returned y) (closed y).
Definition with_errC (e : option error) (y : Sys W) : Sys W :=
  mkSys (store y) (handler y) (acceptor y) (funnel y) (http y) (execFuncC y)
    e (wg y) (done y) (returned y) (closed y).
Definition with_done (b : bool) (y : Sys W) : Sys W :=
  mkSys (store y) (handler y) (acceptor y) (funnel y) (http y) (execFuncC y)
    (errC y) (wg y) b (returned y) (closed y).
Definition with_returned (r : option (option error)) (y : Sys W) : Sys W :=
  mkSys (store y) (handler y) (acceptor y) (funnel y) (http y) (execFuncC y)
    (errC y) (wg y) (done y) r (closed y).
(** [wg.Done()] *)
Definition wg_Done (y : Sys W) : Sys W :=
  mkSys (store y) (handler y) (acceptor y) (funnel y) (http y) (execFuncC y)
    (errC y) (Nat.pred (wg y)) (done y) (returned y) (closed y).

(** A goroutine runs statements on the store; a panic in it ends the
    process, a statement that blocks cannot be scheduled. *)
Definition exec {A} (c : M W A) (y : Sys W) (k : A → Sys W → Step (Sys W))
    : Step (Sys W) :=
  match c (store y) with
  | (Ok a, st) => k a (with_store st y)
  | (Panic _, _) => Crashed
  | (Block, _) => Disabled
  end.

(** [conn.Close()] in one of the two loops, after its log line. *)
Definition reject (line : LogLine) (c : Conn) (y : Sys W) : Sys W :=
  let st := store y in
  mkSys (mkSt (px st) (timers st) (Conn_Close c (world st)) (logged st ++ [line]))
    (handler y) (acceptor y) (funnel y) (http y) (execFuncC y)
    (errC y) (wg y) (done y) (returned y) (c :: closed y).

(** The accept loop comes round to [px.ln.Accept()]: [px.ln] is read
    again, and a call through the nil interface panics. *)
Definition enter_Accept (y : Sys W) : Step (Sys W) :=
  match ln (px (store y)) with
  | Some _ => Next (with_acceptor AAccept y)
  | None => Crashed
  end.

(** The calls of the gateway.  A panic in one of them is taken to be
    recovered by its caller, as net/http does for its handlers, so that the
    executions that go on after it are covered too. *)
Definition call (c : Call) : M W unit :=
  match c with
  | CWrite m => _ ← write m; mret tt
  | CWriteWithContext cxt m => _ ← writeWithContext cxt m; mret tt
  | COpenStream f => _ ← openStream f; mret tt
  | CCloseStream id => openStream_cf id
  | CResetPingTimer => ResetPingTimer
  end.

(** [func (px *Proxy) Shutdown()], without the call to the HTTP layer.
    It is scheduled as one event: its statements close [quit] first, and
    write no field but [quit] and [ln]. *)
Definition Shutdown : M W unit :=
  p ← get_px;
  (if quit p then panic "close of closed channel"
   else modify_px (set_quit true));;
  p' ← get_px;
  (if ln p' is None then mret tt else modify_px (set_ln None));;
  closeSession.

Definition step (e : Event) (y : Sys W) : Step (Sys W) :=
  match e with
  | EAccept c =>
      match acceptor y, ln (px (store y)) with
      | AAccept, Some _ => Next (with_acceptor (AOffer c) y)
      | _, _ => Disabled
      end
  | EAcceptErr =>
      match acceptor y with
      | AAccept =>
          if quit (px (store y))
          then Next (wg_Done (with_acceptor AEnd y))
          else exec (log_line (Println "Accept error:")) y (λ _, enter_Accept)
      | _ => Disabled
      end
  | EOfferTimeout =>
      match acceptor y with
      | AOffer c =>
          enter_Accept
            (reject (Printf "Close connection:%s, only one connection is allowed\n" c) c y)
      | _ => Disabled
      end
  | EHandoff =>
      match acceptor y, handler y with
      | AOffer c, HOuter => enter_Accept (with_handler (HInner c) y)
      | _, _ => Disabled
      end
  | EHandlerQuit =>
      match handler y with
      | HOuter =>
          if quit (px (store y)) then Next (wg_Done (with_handler HEnd y))
          else Disabled
      | _ => Disabled
      end
  | EGraceTimeout =>
      match handler y with
      | HInner c =>
          Next (wg_Done (with_handler HEnd
            (reject (Printf "Close connection %s, only one connection is allowed" c) c y)))
      | _ => Disabled
      end
  | ETakeExec =>
      match handler y with
      | HInner c =>
          if execFuncC y
          then Next (with_handler (HExec c) (with_execFuncC false y))
          else Disabled
      | _ => Disabled
      end
  | EEstablish =>
      match handler y with
      | HExec c =>
          exec (newSession_establish c) y (λ r y',
            Next (with_handler (if r is Some s then HSession c s else HBack) y'))
      | _ => Disabled
      end
  | EFire t => exec (runtime_fire (Some t)) y (λ _, Next)
  | ESessionEnd r =>
      match handler y with
      | HSession c s =>
          exec (newSession_await c s r) y (λ _ y', Next (with_handler HBack y'))
      | _ => Disabled
      end
  | ERecycle =>
      match handler y with
      | HBack =>
          if quit (px (store y)) then Next (wg_Done (with_handler HEnd y))
          else Next (with_handler HOuter (with_execFuncC true y))
      | _ => Disabled
      end
  | EFunnelQuit =>
      match funnel y with
      | FServe =>
          if quit (px (store y)) then Next (wg_Done (with_funnel FEnd y))
          else Disabled
      | FEnd => Disabled
      end
  | EHttpReturn r =>
      match http y with
      | HttpServe =>
          match r with
          | Some err =>
              if quit (px (store y)) then Next (wg_Done (with_http HttpEnd y))
              else Next (with_http (HttpSend err) y)
          | None => Next (wg_Done (with_http HttpEnd y))
          end
      | _ => Disabled
      end
  | EHttpSend =>
      match http y, errC y with
      | HttpSend err, None =>
          Next (wg_Done (with_http HttpEnd (with_errC (Some err) y)))
      | _, _ => Disabled
      end
  | EJoin =>
      match wg y, done y with
      | O, false => Next (with_done true y)
      | _, _ => Disabled
      end
  | ERunReturn by_done =>
      match returned y with
      | Some _ => Disabled
      | None =>
          let leave r y' :=
            if withoutTeller (px (store y)) then Next (with_returned (Some r) y')
            else exec (log_line (Println "Proxy service closed")) y'
                   (λ _ y'', Next (with_returned (Some r) y'')) in
          if by_done
          then if done y then leave None y else Disabled
          else match errC y with
               | Some err => leave (Some err) (with_errC None y)
               | None => Disabled
               end
      end
  | EShutdown => exec Shutdown y (λ _, Next)
  | ECall c =>
      match call c (store y) with
      | (Block, _) => Disabled
      | (_, st) => Next (with_store st y)
      end
  end.

Fixpoint run_events (tr : list Event) (y : Sys W) : Step (Sys W) :=
  match tr with
  | [] => Next y
  | e :: tr' =>
      match step e y with
      | Next y' => run_events tr' y'
      | Disabled => Disabled
      | Crashed => Crashed
      end
  end.

(** [func (px *Proxy) Run() error] up to its final select, given whether
    [net.Listen] succeeds: the goroutines it has started, each at the head
    of its loop, the token already in [execFuncC]. *)
Definition Run_start (listen_ok : bool) (p : Proxy) (w : W) : Sys W :=
  if withoutTeller p
  then mkSys (start p w) HEnd AEnd FEnd HttpServe false None 1 false None []
  else if listen_ok
  then mkSys (mkSt (set_ln (Some 0%nat) p) ∅ w [Println "Proxy start, serve on"])
         HOuter AAccept FServe HttpServe true None 4 false None []
  else mkSys (start p w) HEnd AEnd FEnd HttpEnd false None 0 false
         (Some (Some (errors_New "listen failed"))) [].
End Goroutines.

(** A run of [Run] from a proxy made by [New]. *)
Definition reachable {W} `{!Daemon W} (y : Sys W) : Prop :=
  ∃ cfg p listen_ok w tr,
    New cfg false = Ok p ∧ run_events tr (Run_start listen_ok p w) = Next y.

(** The event is a handshake that succeeds. *)
Definition establishes {W} `{!Daemon W} (e : Event) (y : Sys W) : bool :=
  match e, handler y with
  | EEstablish, HExec c =>
      if (daemon_NewSession c (world (store y))).1 is inr _ then true else false
  | _, _ => false
  end.

(** No handshake succeeds along the run of [tr] from [y]. *)
Fixpoint no_session_established {W} `{!Daemon W} (tr : list Event) (y : Sys W) : bool :=
  match tr with
  | [] => true
  | e :: tr' =>
      negb (establishes e y)
      && match step e y with
         | Next y' => no_session_established tr' y'
         | _ => true
         end
  end.

(** ** strand and the worker that serves reqC *)

Module Funnel.
Section Funnel.
(** What the submitted functions work on; a submitted function is the
    sequence of its atomic statements. *)
Context {D : Type}.

(** A caller of [strand]. *)
Inductive CallerPc :=
  | CSend          (* at [px.reqC <- func() { defer close(q); f() }] *)
  | CWait          (* at [<-q] *)
  | CDone.         (* [strand] has returned *)

(** The goroutine of [Run] that serves [px.reqC]. *)
Inductive WorkerPc :=
  | WSelect                                   (* at its select *)
  | WReq (i : nat) (k : nat) (rest : list (D → D))
                                              (* in [req()] of caller [i], [k] statements done *)
  | WEnd.                                     (* returned *)

(** [handed] lists the callers in the order in which their sends on
    [px.reqC] completed, [closedq] those whose [q] has been closed, [ran]
    the statements executed: [(i, k)] is statement [k] of the function of
    caller [i]. *)
Record State := mkState {
  data : D;
  callers : list CallerPc;
  worker : WorkerPc;
  quitC : bool;
  handed : list nat;
  closedq : list nat;
  ran : list (nat * nat);
}.

Inductive Ev :=
  | Recv (i : nat)     (* the send of caller [i] meets [req := <-px.reqC] *)
  | Stmt               (* the worker runs the next statement of [req()] *)
  | Return (i : nat)   (* [<-q] of caller [i] *)
  | Quit               (* [close(px.quit)] *)
  | WorkerQuit.        (* worker: [case <-px.quit] *)

(** [subs !! i] is the function caller [i] passes to [strand]. *)
Definition step (subs : list (list (D → D))) (e : Ev) (y : State) : option State :=
  match e with
  | Recv i =>
      match worker y, callers y !! i, subs !! i with
      | WSelect, Some CSend, Some f =>
          Some (mkState (data y) (<[i := CWait]> (callers y)) (WReq i 0 f)
                  (quitC y) (handed y ++ [i]) (closedq y) (ran y))
      | _, _, _ => None
      end
  | Stmt =>
      match worker y with
      | WReq i k (a :: rest) =>
          Some (mkState (a (data y)) (callers y) (WReq i (S k) rest)
                  (quitC y) (handed y) (closedq y) (ran y ++ [(i, k)]))
      | WReq i k [] =>
          (* f() has returned: the deferred [close(q)], and back to the select *)
          Some (mkState (data y) (callers y) WSelect
                  (quitC y) (handed y) (closedq y ++ [i]) (ran y))
      | _ => None
      end
  | Return i =>
      match callers y !! i with
      | Some CWait =>
          if bool_decide (i ∈ closedq y)
          then Some (mkState (data y) (<[i := CDone]> (callers y)) (worker y)
                       (quitC y) (handed y) (closedq y) (ran y))
          else None
      | _ => None
      end
  | Quit =>
      if quitC y then None
      else Some (mkState (data y) (callers y) (worker y) true
                   (handed y) (closedq y) (ran y))
  | WorkerQuit =>
      match worker y with
      | WSelect =>
          if quitC y
          then Some (mkState (data y) (callers y) WEnd (quitC y)
                       (handed y) (closedq y) (ran y))
          else None
      | _ => None
      end
  end.

Fixpoint run (subs : list (list (D → D))) (tr : list Ev) (y : State) : option State :=
  match tr with
  | [] => Some y
  | e :: tr' =>
      match step subs e y with
      | Some y' => run subs tr' y'
      | None => None
      end
  end.

(** Every caller is at its send, the worker at its select. *)
Definition init (subs : list (list (D → D))) (d : D) : State :=
  mkState d (replicate (length subs) CSend) WSelect false [] [] [].

(** The statements of the function of caller [i], in program order. *)
Definition stmts (subs : list (list (D → D))) (i : nat) : list (nat * nat) :=
  (λ k, (i, k)) <$> seq 0 (length (default [] (subs !! i))).

(** The effect of a list of executed statements. *)
Definition effect (subs : list (list (D → D))) (l : list (nat * nat)) (d : D) : D :=
  foldl (λ d ik, default id (subs !! ik.1 ≫= (.!! ik.2)) d) d l.

(** The caller whose function the worker is running, and how many of its
    statements are done. *)
Definition running (y : State) : list nat :=
  if worker y is WReq i _ _ then [i] else [].
Definition progress (y : State) : nat :=
  if worker y is WReq _ k _ then k else 0%nat.

(** What holds of the funnel between two events. *)
Definition inv (subs : list (list (D → D))) (d : D) (y : State) : Prop :=
  handed y = (closedq y ++ running y)%list
  ∧ ran y = ((closedq y ≫= stmts subs)
             ++ take (progress y) (running y ≫= stmts subs))%list
  ∧ data y = effect subs (ran y) d
  ∧ NoDup (handed y)
  ∧ (∀ i, callers y !! i = Some CSend → i ∉ handed y)
  ∧ (∀ i, callers y !! i = Some CDone → i ∈ closedq y)
  ∧ (∀ i, i ∈ handed y → is_Some (subs !! i))
  ∧ match worker y with
    | WReq i k rest =>
        ∃ f, subs !! i = Some f ∧ rest = drop k f ∧ (k ≤ length f)%nat
    | _ => True
    end.
End Funnel.
End Funnel.

(** ** Concrete runs *)

Definition cfg0 : Config :=
  mkConfig "0.0.0.0:7070" "127.0.0.1:7071" "" "" "" "" false.
Definition cfg_withoutTeller : Config :=
  mkConfig "" "127.0.0.1:7071" "" "" "" "" true.
Definition proxy_withoutTeller : Proxy := mkProxy true None false None None false.

(** The proxy with the session of peer 1 registered (session 0). *)
Definition st_session : St MuxWorld :=
  (newSession_establish 1%nat (start proxy0 mux0)).2.
(** The same after [closeSession]: session 0 is closed and still in the slot. *)
Definition st_closed : St MuxWorld := (closeSession st_session).2.
(** Session 0 has ended and the session of peer 2 (session 1) has taken
    its place. *)
Definition replace_session (s : St MuxWorld) : St MuxWorld :=
  (newSession_establish 2%nat (newSession_await 1%nat 0%nat RunFirst s).2).2.

(** The state a run of [Run] (listener up, teller enabled) reaches. *)
Definition sys_after (tr : list Event) : Sys MuxWorld :=
  match run_events tr (Run_start true proxy0 mux0) with
  | Next y => y
  | _ => Run_start true proxy0 mux0
  end.

(** Peer 1 is being served and peer 2 has just been accepted. *)
Definition tr_busy : list Event :=
  [EAccept 1%nat; EHandoff; ETakeExec; EEstablish; EAccept 2%nat].
(** Peer 1 has been handed to the handler loop. *)
Definition tr_inner : list Event := [EAccept 1%nat; EHandoff].
(** The untrusted peer 3 has been turned away at the handshake. *)
Definition tr_failed : list Event :=
  [EAccept 3%nat; EHandoff; ETakeExec; EEstablish; ERecycle; ECall (CWrite 7%nat)].

(** The ping timer of that session fires and the select takes its case. *)
Definition tr_timeout : list Event :=
  tr_busy ++ [EFire 0%nat; ESessionEnd TimerFirst].

(** The session of peer 1 ends by itself before its ping timer fires. *)
Definition tr_run_first : list Event :=
  [EAccept 1%nat; EHandoff; ETakeExec; EEstablish; ESessionEnd RunFirst].
(** The ping timer of the session fires, [ResetPingTimer] re-arms it, and
    the select takes the tick. *)
Definition tr_reset : list Event :=
  [EAccept 1%nat; EHandoff; ETakeExec; EEstablish; EFire 0%nat;
   ECall CResetPingTimer; ESessionEnd TimerFirst].

(** Two callers of [strand], each with one increment: caller 1 is served
    and returns, then caller 0 is served. *)
Definition two_increments : list (list (Z → Z)) := replicate 2 [Z.succ].
Definition tr_two : list Funnel.Ev :=
  [Funnel.Recv 1%nat; Funnel.Stmt; Funnel.Stmt; Funnel.Return 1%nat;
   Funnel.Recv 0%nat; Funnel.Stmt].
Definition two_done : Funnel.State :=
  default (Funnel.init two_increments 0)
    (Funnel.run two_increments tr_two (Funnel.init two_increments 0)).

(** Caller 1 has been served, then [quit] was closed and the worker has
    returned; caller 0 is still at its send. *)
Definition two_quit : Funnel.State :=
  default (Funnel.init two_increments 0)
    (Funnel.run two_increments
       [Funnel.Recv 1%nat; Funnel.Stmt; Funnel.Stmt; Funnel.Quit; Funnel.WorkerQuit]
       (Funnel.init two_increments 0)).
(** Caller 1 has returned from [strand]. *)
Definition two_left : Funnel.State :=
  default two_quit (Funnel.run two_increments [Funnel.Return 1%nat] two_quit).

(** ** Invariants of a run *)

Section Invariants.
Context {W : Type} `{!Daemon W}.

(** The goroutines counted by [wg] that have not returned. *)
Definition running_workers (y : Sys W) : nat :=
  ((if handler y is HEnd then 0 else 1)
   + (if acceptor y is AEnd then 0 else 1)
   + (if funnel y is FEnd then 0 else 1)
   + (if http y is HttpEnd then 0 else 1))%nat.

(** Between two events the mutex is free; the slot holds the session that
    [newSession] is waiting on and nothing else; the token is in
    [execFuncC] exactly while the handler loop is at one of its selects;
    [wg] counts the goroutines still running, [done] is closed after they
    have all returned, and [Run] returns nil after [done] is closed; with
    the teller enabled the accept loop runs until [quit] is closed. *)
Definition inv (y : Sys W) : Prop :=
  let p := px (store y) in
  mu p = false
  ∧ sn p = (if handler y is HSession _ s then Some s else None)
  ∧ (if handler y is HSession _ _ then is_Some (pingTimer p) else True)
  ∧ match handler y with
    | HOuter | HInner _ => execFuncC y = true
    | HEnd => True
    | _ => execFuncC y = false
    end
  ∧ wg y = running_workers y
  ∧ (done y = true → wg y = 0%nat)
  ∧ (returned y = Some None → done y = true)
  ∧ (withoutTeller p = false → quit p = false → returned y = None →
     acceptor y ≠ AEnd).
End Invariants.

(** * Results on the methods under the mutex *)

(** Unfolds a method down to the store. *)
Ltac go_unfold :=
  unfold call, Shutdown, write, writeWithContext, openStream, openStream_cf, call_closeStream,
    setSession, closeSession, ResetPingTimer, newSession_await,
    newSession_establish, runtime_fire, recv_C, time_NewTimer,
    call_Write, call_WriteWithContext, call_Sub, call_Unsub, call_Close,
    call_Reset, Lock, Unlock, defer, get_px, modify_px, modify_world,
    modify_timers, lift_world, log_line, panic, block,
    mbind, mret, M_bind, M_ret, bind, ret in *.

(** Unfolds, then splits on every test the code makes. *)
Ltac go_cases :=
  repeat (go_unfold; simpl in *);
  repeat (case_match; simplify_eq/=; try done).

(** Splits a store with a free mutex into its fields. *)
Ltac go_store s :=
  let p := fresh "p" in
  destruct s as [p ? ? ?]; destruct p; simpl in *; subst.

Section MethodResults.
Context {W : Type} `{!Daemon W}.
Implicit Types (s : St W) (m : Messager) (f : Handler) (p : SessionPtr).

Lemma writeWithContext_no_session s cxt m :
  sn (px s) = None → mu (px s) = false →
  writeWithContext cxt m s = (Ok (Some (errors_New "write failed, session is nil")), s).
Proof. intros Hsn Hmu. go_store s. reflexivity. Qed.

Lemma openStream_no_session s f :
  sn (px s) = None → mu (px s) = false →
  openStream f s = (Ok (0, Some (mret tt), Some (errors_New "session is nil")), s).
Proof. intros Hsn Hmu. go_store s. reflexivity. Qed.

Lemma noop_closeStream s : call_closeStream (W:=W) (Some (mret tt)) s = (Ok tt, s).
Proof. reflexivity. Qed.

(** C1: with no session registered [write] does not return the
    no-session error: it assigns it to its result and goes on to call
    [Write] through the nil session pointer, which panics (the deferred
    unlock leaves the store as it was). *)
Theorem write_no_session_panics s m :
  sn (px s) = None → mu (px s) = false →
  write m s = (Panic nil_deref, s).
Proof. intros Hsn Hmu. go_store s. reflexivity. Qed.

(** C9: with a session registered, [write] returns nil whatever the
    session's [Write] returns: the call is made, its effect on the daemon is
    kept and its error is dropped. *)
Theorem write_discards_session_error s p m :
  sn (px s) = Some p → mu (px s) = false →
  write m s =
    (Ok None, mkSt (px s) (timers s) (Session_Write p m (world s)).2 (logged s)).
Proof.
  intros Hsn Hmu. go_store s. go_unfold. simpl.
  destruct (Session_Write p m world0) as [e w]. reflexivity.
Qed.

(** What the close function of a successful [openStream] does in any later
    store whose mutex is free. *)
Lemma openStream_cf_spec s id :
  mu (px s) = false →
  openStream_cf id s =
    (Ok tt,
     mkSt (px s) (timers s)
       (match sn (px s) with
        | Some p' => Session_Unsub p' id (world s)
        | None => world s
        end)
       (logged s ++ [Debugln "Close stream:" (Some id)])).
Proof. intros Hmu. go_store s. destruct sn0; reflexivity. Qed.

Lemma openStream_ok_inv s f id cf s1 :
  openStream f s = (Ok (id, cf, None), s1) →
  cf = Some (openStream_cf id) ∧ ∃ p, sn (px s) = Some p.
Proof.
  go_unfold. destruct s as [[wt l q [p|] t [|]] ts w lg]; simpl;
    try discriminate.
  destruct (Session_Sub p f w) as [i w']. simpl. intros [= <- <- <-]. eauto.
Qed.

(** C5, as amended: the close function of a stream is a no-op without
    error once the slot has been cleared; once the slot holds another
    session it does not fail either, and unsubscribes its id on the session
    that is current then. *)
Theorem closeStream_stale s f id cf s1 s2 :
  openStream f s = (Ok (id, cf, None), s1) →
  mu (px s2) = false →
  call_closeStream cf s2 =
    (Ok tt,
     mkSt (px s2) (timers s2)
       (match sn (px s2) with
        | Some p' => Session_Unsub p' id (world s2)
        | None => world s2
        end)
       (logged s2 ++ [Debugln "Close stream:" (Some id)])).
Proof.
  intros Hopen Hmu. apply openStream_ok_inv in Hopen as [-> _].
  simpl. by apply openStream_cf_spec.
Qed.
End MethodResults.

(** * Results on the goroutines *)

Section GoroutineResults.
Context {W : Type} `{!Daemon W}.
Implicit Types (s : St W) (y : Sys W) (e : Event) (w : W).

(** ** What each piece of code does to the proxy's fields *)

Lemma set_mu_roundtrip (p : Proxy) :
  mu p = false → set_mu false (set_mu true p) = p.
Proof. destruct p; simpl; by intros ->. Qed.

Lemma setSession_spec s v :
  mu (px s) = false →
  setSession v s = (Ok tt, mkSt (set_sn v (px s)) (timers s) (world s) (logged s)).
Proof. intros Hmu. go_store s. reflexivity. Qed.

Lemma call_px c s : mu (px s) = false → px (call c s).2 = px s.
Proof.
  intros Hmu. destruct s as [[wt l q sp t mu0] ts w lg]. simpl in Hmu. subst mu0.
  destruct c as [m|cxt m|f|id|]; go_unfold; simpl.
  - destruct sp as [p|]; simpl; [|done].
    by destruct (Session_Write p m w).
  - destruct sp as [p|]; simpl; [|done].
    by destruct (Session_WriteWithContext p cxt m w).
  - destruct sp as [p|]; simpl; [|done].
    by destruct (Session_Sub p f w).
  - by destruct sp.
  - by destruct t.
Qed.

Lemma Shutdown_spec s a s' :
  mu (px s) = false → Shutdown s = (Ok a, s') →
  quit (px s) = false ∧ px s' = set_ln None (set_quit true (px s)).
Proof.
  intros Hmu. destruct s as [[wt l q sp t mu0] ts w lg]. simpl in Hmu. subst mu0.
  go_unfold. simpl.
  destruct q; simpl; [done|].
  destruct l, sp; simpl; by intros [= <- <-].
Qed.

Lemma establish_spec s c :
  mu (px s) = false →
  match daemon_NewSession c (world s) with
  | (inl err, w) =>
      newSession_establish c s =
        (Ok None,
         mkSt (px s) (timers s) w
           (logged s ++ [Debugln "New session" None] ++ [Println err]
              ++ [Debugln "Session closed" None]))
  | (inr sp, w) =>
      newSession_establish c s =
        (Ok (Some sp),
         mkSt (set_pingTimer (Some (fresh (dom (timers s)))) (set_sn (Some sp) (px s)))
           (<[fresh (dom (timers s)) := timer_new]> (timers s)) w
           (logged s ++ [Debugln "New session" None]))
  end.
Proof.
  intros Hmu. destruct s as [[wt l q sp0 t mu0] ts w lg]. simpl in Hmu. subst mu0.
  go_unfold. simpl. destruct (daemon_NewSession c w) as [[err|sp] w']; simpl.
  - by rewrite <- !(assoc_L (++)).
  - reflexivity.
Qed.

Lemma await_spec s c sp r a s' :
  mu (px s) = false →
  newSession_await c sp r s = (Ok a, s') →
  px s' = set_sn None (px s).
Proof. intros Hmu Hrun. go_store s. go_cases. Qed.

Lemma await_RunFirst_returns s c sp :
  mu (px s) = false → is_Some (pingTimer (px s)) →
  ∃ s', newSession_await c sp RunFirst s = (Ok tt, s').
Proof. intros Hmu [t Ht]. go_store s. go_cases; eauto. Qed.
Lemma New_fields cfg p :
  New cfg false = Ok p →
  p = mkProxy (WithoutTeller cfg) None false None None false.
Proof. unfold New. repeat case_match; try done. by intros [= <-]. Qed.

Lemma inv_Run_start cfg p listen_ok w :
  New cfg false = Ok p → inv (Run_start listen_ok p w).
Proof.
  intros ->%New_fields. unfold Run_start, inv. simpl.
  destruct (WithoutTeller cfg), listen_ok; simpl; repeat split; done.
Qed.

Lemma exec_Next {A} (c : M W A) y (k : A → Sys W → Step (Sys W)) y' :
  exec c y k = Next y' →
  ∃ a st, c (store y) = (Ok a, st) ∧ k a (with_store st y) = Next y'.
Proof. unfold exec. destruct (c (store y)) as [[a| |] st]; naive_solver. Qed.

Lemma enter_Accept_Next y y' :
  enter_Accept y = Next y' → y' = with_acceptor AAccept y.
Proof. unfold enter_Accept. case_match; naive_solver. Qed.

Lemma await_TimerFirst_returns s c sp t tm :
  mu (px s) = false → pingTimer (px s) = Some t →
  timers s !! t = Some tm → tick tm = true →
  ∃ s', newSession_await c sp TimerFirst s = (Ok tt, s').
Proof.
  intros Hmu Ht Htm Htick. go_store s. destruct tm as [ar tk]. simpl in *. subst.
  go_unfold. simpl. rewrite Htm. simpl.
  destruct (Session_Run _ _). simpl. eauto.
Qed.

(** When [sn.Run()] returns first, [newSession] goes on to clear the slot:
    it touches no timer, and the daemon has seen the session's [Run] and
    nothing else. *)
Lemma await_RunFirst_effect s c sp :
  mu (px s) = false → is_Some (pingTimer (px s)) →
  ∃ lg,
    newSession_await c sp RunFirst s
    = (Ok tt, mkSt (set_sn None (px s)) (timers s) (Session_Run sp (world s)).2 lg).
Proof.
  intros Hmu [t Ht]. destruct s as [[wt l q sp0 t0 mu0] ts w lg]. simpl in *. subst.
  go_unfold. simpl. destruct (Session_Run sp w) as [[e|] w']; simpl;
    [destruct (decide (e = io_EOF))|]; simpl; eexists; reflexivity.
Qed.

(** When the timer case is taken, the tick was pending; it is received,
    and the timer is otherwise left as it was. *)
Lemma await_TimerFirst_effect s c sp a s' :
  mu (px s) = false →
  newSession_await c sp TimerFirst s = (Ok a, s') →
  ∃ t tm,
    pingTimer (px s) = Some t ∧ timers s !! t = Some tm ∧ tick tm = true
    ∧ timers s' = <[t := mkTimer (armed tm) false]> (timers s)
    ∧ world s' = (Session_Run sp (Conn_Close c (world s))).2
    ∧ px s' = set_sn None (px s)
    ∧ logged s' = (logged s ++ [Debugln "Session closed" None])%list.
Proof.
  intros Hmu. destruct s as [[wt l q sp0 t mu0] ts w lg]. simpl in *. subst.
  go_unfold. simpl. destruct t as [t|]; simpl; [|done].
  destruct (ts !! t) as [[ar tk]|] eqn:Ht; simpl; [|done].
  unfold timer_recv. simpl. destruct tk; simpl; [|done].
  destruct (Session_Run sp _) as [er w'] eqn:Hrun. simpl.
  intros [= <- <-]. exists t, (mkTimer ar true). simpl.
  rewrite ?Hrun. split_and!; done.
Qed.

Lemma ResetPingTimer_nil s :
  pingTimer (px s) = None → ResetPingTimer s = (Panic nil_deref, s).
Proof. intros Hpt. go_unfold. simpl. by rewrite Hpt. Qed.

Lemma log_line_spec l s a s' :
  log_line l s = (Ok a, s') → px s' = px s.
Proof. by intros [= <- <-]. Qed.

Lemma runtime_fire_spec tp s a s' :
  runtime_fire tp s = (Ok a, s') → px s' = px s.
Proof. destruct tp; by intros [= <- <-]. Qed.

#[local] Opaque newSession_establish newSession_await Shutdown call runtime_fire log_line.

Ltac inv_done :=
  unfold inv, running_workers in *; simpl in *;
  repeat match goal with H : _ ∧ _ |- _ => destruct H end;
  repeat split; simplify_eq/=; try done; try lia;
  try (intros; simplify_eq/=; first [lia | congruence | naive_solver]).

Lemma inv_step e y y' : inv y → step e y = Next y' → inv y'.
Proof.
  intros Hinv Hstep.
  destruct y as [st h a f ht tok ec n d r cl].
  destruct e; simpl in Hstep.
  - (* EAccept *) destruct a; try done. case_match; simplify_eq. inv_done.
  - (* EAcceptErr *) destruct a; try done. case_match.
    + simplify_eq. inv_done.
    + apply exec_Next in Hstep as (? & st' & Hlog & ->%enter_Accept_Next).
      apply log_line_spec in Hlog.
      unfold inv, running_workers in *; simpl in *. rewrite Hlog. inv_done.
  - destruct a; try done. apply enter_Accept_Next in Hstep as ->. inv_done.
  - destruct a, h; try done; apply enter_Accept_Next in Hstep as ->; inv_done.
  - destruct h; try done. case_match; simplify_eq. inv_done.
  - destruct h; try done. simplify_eq. inv_done.
  - destruct h; try done. simpl in *. case_match; simplify_eq. inv_done.
  - (* EEstablish *) destruct h; try done.
    apply exec_Next in Hstep as (r' & st' & Hest & [= <-]). simpl in *.
    assert (Hmu : mu (px st) = false) by apply Hinv.
    pose proof (establish_spec st conn Hmu) as Hspec.
    destruct (daemon_NewSession conn (world st)) as [[err|sp] w'];
      rewrite Hest in Hspec; simplify_eq/=; inv_done.
  - (* EFire *) apply exec_Next in Hstep as (? & st' & Hf & [= <-]).
    apply runtime_fire_spec in Hf.
    unfold inv, running_workers in *; simpl in *. rewrite Hf. inv_done.
  - (* ESessionEnd *) destruct h; try done.
    apply exec_Next in Hstep as (? & st' & Haw & [= <-]).
    apply await_spec in Haw; [|apply Hinv]. 
    unfold inv, running_workers in *; simpl in *. rewrite Haw. simpl. inv_done.
  - destruct h; try done. simpl in *. case_match; simplify_eq; inv_done.
  - destruct f; try done. simpl in *. case_match; simplify_eq; inv_done.
  - destruct ht; try done. simpl in *.
    destruct r0 as [err|]; [case_match|]; simplify_eq; inv_done.
  - destruct ht, ec; try done. simpl in *. simplify_eq. inv_done.
  - simpl in *. destruct n, d; simplify_eq. inv_done.
  - simpl in *. destruct r; try done.
    destruct by_done.
    + destruct d; try done. case_match; simplify_eq/=; [inv_done|].
      apply exec_Next in Hstep as (? & st' & Hlog & [= <-]).
      apply log_line_spec in Hlog.
      unfold inv, running_workers in *; simpl in *. rewrite Hlog. inv_done.
    + destruct ec; try done. case_match; simplify_eq/=; [inv_done|].
      apply exec_Next in Hstep as (? & st' & Hlog & [= <-]).
      apply log_line_spec in Hlog.
      unfold inv, running_workers in *; simpl in *. rewrite Hlog. inv_done.
  - apply exec_Next in Hstep as (? & st' & Hsh & [= <-]).
    apply Shutdown_spec in Hsh as [Hq Hpx]; [|apply Hinv].
    unfold inv, running_workers in *; simpl in *. rewrite Hpx. inv_done.
  - simpl in *. pose proof (call_px c st) as Hpx.
    destruct (call c st) as [[| |] st'] eqn:Hc; simplify_eq/=.
    all: unfold inv, running_workers in *; simpl in *; rewrite Hpx by apply Hinv; inv_done.
Qed.

Lemma inv_run tr y y' : inv y → run_events tr y = Next y' → inv y'.
Proof.
  revert y. induction tr as [|e tr IH]; simpl; intros y Hinv Hrun.
  - by simplify_eq.
  - destruct (step e y) as [y1| |] eqn:Hstep; try done.
    eauto using inv_step.
Qed.

Lemma inv_reachable y : reachable y → inv y.
Proof.
  intros (cfg & p & lok & w & tr & Hnew & Hrun).
  eauto using inv_run, inv_Run_start.
Qed.

Lemma reachable_step e y y' : reachable y → step e y = Next y' → reachable y'.
Proof.
  intros (cfg & p & lok & w & tr & Hnew & Hrun) Hstep.
  exists cfg, p, lok, w, (tr ++ [e])%list. split; [done|].
  revert Hrun. generalize (Run_start lok p w). 
  induction tr as [|e' tr IH]; simpl; intros y0 Hrun.
  - simplify_eq. by rewrite Hstep.
  - destruct (step e' y0); try done. eauto.
Qed.

Lemma reachable_run tr y y' : reachable y → run_events tr y = Next y' → reachable y'.
Proof.
  revert y. induction tr as [|e tr IH]; simpl; intros y Hy Hrun.
  - by simplify_eq.
  - destruct (step e y) as [y1| |] eqn:Hstep; try done.
    eauto using reachable_step.
Qed.

(** How an event moves the handler loop. *)
Lemma handler_step e y y' :
  step e y = Next y' →
  handler y' = handler y
  ∨ match handler y, handler y' with
    | HOuter, HInner _ => e = EHandoff
    | HOuter, HEnd => e = EHandlerQuit
    | HInner _, HEnd => e = EGraceTimeout
    | HInner c, HExec c' => e = ETakeExec ∧ c = c'
    | HExec c, HSession c' _ => e = EEstablish ∧ c = c'
    | HExec _, HBack => e = EEstablish
    | HSession _ _, HBack => ∃ r, e = ESessionEnd r
    | HBack, HOuter => e = ERecycle
    | HBack, HEnd => e = ERecycle
    | _, _ => False
    end.
Proof.
  intros Hstep. destruct y as [st h a f ht tok ec n d r cl].
  destruct e; simpl in Hstep.
  - destruct a; try done. case_match; simplify_eq. by left.
  - destruct a; try done. case_match.
    + simplify_eq. by left.
    + apply exec_Next in Hstep as (? & st' & Hlog & ->%enter_Accept_Next). by left.
  - destruct a; try done. apply enter_Accept_Next in Hstep as ->. by left.
  - destruct a, h; try done; apply enter_Accept_Next in Hstep as ->. by right.
  - destruct h; try done. case_match; simplify_eq. by right.
  - destruct h; try done. simplify_eq. by right.
  - destruct h; try done. simpl in *. case_match; simplify_eq. by right.
  - destruct h; try done.
    apply exec_Next in Hstep as (r' & st' & Hest & [= <-]). right. simpl.
    by destruct r'.
  - apply exec_Next in Hstep as (? & st' & Hf & [= <-]). by left.
  - destruct h; try done.
    apply exec_Next in Hstep as (? & st' & Haw & [= <-]). right. simpl. eauto.
  - destruct h; try done. simpl in *. case_match; simplify_eq; by right.
  - destruct f; try done. simpl in *. case_match; simplify_eq; by left.
  - destruct ht; try done. simpl in *.
    destruct r0 as [err|]; [case_match|]; simplify_eq; by left.
  - destruct ht, ec; try done. simpl in *. simplify_eq. by left.
  - simpl in *. destruct n, d; simplify_eq. by left.
  - simpl in *. destruct r; try done.
    destruct by_done.
    + destruct d; try done. case_match; simplify_eq/=; [by left|].
      apply exec_Next in Hstep as (? & st' & Hlog & [= <-]). by left.
    + destruct ec; try done. case_match; simplify_eq/=; [by left|].
      apply exec_Next in Hstep as (? & st' & Hlog & [= <-]). by left.
  - apply exec_Next in Hstep as (? & st' & Hsh & [= <-]). by left.
  - simpl in *. destruct (call c st) as [[| |] st'] eqn:Hc; simplify_eq/=; by left.
Qed.

(** C3, as amended: in every run the slot holds at most the one session
    that [newSession] is serving.  While a session is registered, a
    connection that waits at the acceptor cannot be handed to the handler
    loop; when the acceptor's grace timer fires, the acceptor logs its line
    and calls [Close] on that connection, and the session stays.  If
    instead the session ends first (with [quit] open; its [Run] can always
    return), the handler loop comes round, takes the waiting connection,
    which has not been closed, and calls [newSession] on it; a handshake that
    succeeds registers its session.  No event puts a session into a slot that holds another one:
    the slot is cleared in between. *)
Theorem one_session_at_a_time y :
  reachable y →
  (∀ sp, sn (px (store y)) = Some sp → ∃ c, handler y = HSession c sp)
  ∧ (∀ sp c, sn (px (store y)) = Some sp → acceptor y = AOffer c →
       step EHandoff y = Disabled
       ∧ (∀ y', step EOfferTimeout y = Next y' →
            world (store y') = Conn_Close c (world (store y))
            ∧ logged (store y')
              = (logged (store y)
                 ++ [Printf "Close connection:%s, only one connection is allowed\n" c])%list
            ∧ closed y' = c :: closed y
            ∧ acceptor y' = AAccept ∧ handler y' = handler y
            ∧ sn (px (store y')) = Some sp)
       ∧ (is_Some (ln (px (store y))) → ∃ y', step EOfferTimeout y = Next y'))
  ∧ (∀ sp c, sn (px (store y)) = Some sp → acceptor y = AOffer c →
       quit (px (store y)) = false → is_Some (ln (px (store y))) →
       (∃ y1, step (ESessionEnd RunFirst) y = Next y1
          ∧ world (store y1) = (Session_Run sp (world (store y))).2)
       ∧ ∀ r y1, step (ESessionEnd r) y = Next y1 →
           ∃ y',
             run_events [ERecycle; EHandoff; ETakeExec] y1 = Next y'
             ∧ handler y' = HExec c ∧ acceptor y' = AAccept
             ∧ store y' = store y1 ∧ sn (px (store y')) = None
             ∧ closed y' = closed y
             ∧ ∃ y'', step EEstablish y' = Next y''
                 ∧ ∀ sp', (daemon_NewSession c (world (store y'))).1 = inr sp' →
                     handler y'' = HSession c sp'
                     ∧ sn (px (store y'')) = Some sp')
  ∧ (∀ e y' sp', step e y = Next y' → sn (px (store y')) = Some sp' →
       sn (px (store y)) = None ∨ sn (px (store y)) = Some sp').
Proof.
  intros Hy. pose proof (inv_reachable y Hy) as Hinv.
  assert (Hserved : ∀ sp, sn (px (store y)) = Some sp → ∃ c, handler y = HSession c sp).
  { intros sp Hs. destruct Hinv as (_ & Hsn & _). rewrite Hsn in Hs.
    destruct (handler y); naive_solver. }
  split_and!; [done| | |].
  - intros sp c Hs Ha. destruct (Hserved sp Hs) as [c0 Hh].
    destruct y as [st h a f ht tok ec n d r cl]. simpl in *. subst h a.
    split_and!; [done| |].
    + intros y' ->%enter_Accept_Next. simpl. by split_and!.
    + intros [l Hl]. unfold enter_Accept. simpl. rewrite Hl. eauto.
  - intros sp c Hs Ha Hq [l Hl]. destruct (Hserved sp Hs) as [c0 Hh].
    destruct Hinv as (Hmu & _ & Htm & _). rewrite Hh in Htm.
    destruct y as [[[wt l0 q sp0 t mu0] ts w lg0] h a f ht tok ec n d r cl].
    simpl in *. subst. split.
    + destruct (await_RunFirst_effect
        (mkSt (mkProxy wt (Some l) false (Some sp) t false) ts w lg0) c0 sp eq_refl Htm)
        as [lg Haw].
      unfold exec. simpl. rewrite Haw. simpl. eauto.
    + intros r0 y1 Hstep.
      apply exec_Next in Hstep as (u & [p1 ts1 w1 lg1] & Haw & [= <-]).
      apply await_spec in Haw; [|done]. unfold set_sn in Haw. simpl in Haw.
      subst p1.
      simpl. eexists. split; [reflexivity|]. simpl. split_and!; try done.
      pose proof (establish_spec
        (mkSt (mkProxy wt (Some l) false None t false) ts1 w1 lg1)
        c eq_refl) as Hspec. simpl in Hspec. unfold exec. simpl.
      destruct (daemon_NewSession c w1) as [[err|sp1] w2];
        rewrite Hspec; simpl; (eexists; split; [reflexivity|]); simpl;
        intros sp'; [done|]. by intros [= ->].
  - intros e y' sp' Hstep Hs'.
    pose proof (inv_step e y y' Hinv Hstep) as Hinv'.
    destruct Hinv as (_ & Hsn & _), Hinv' as (_ & Hsn' & _).
    rewrite Hsn' in Hs'. rewrite Hsn.
    destruct (handler_step e y y' Hstep) as [Heq|Hmove].
    + rewrite Heq in Hs'. destruct (handler y); naive_solver.
    + destruct (handler y), (handler y'); try done; auto.
Qed.

Lemma handler_End_run tr y y' :
  handler y = HEnd → run_events tr y = Next y' → handler y' = HEnd.
Proof.
  revert y. induction tr as [|e tr IH]; simpl; intros y Hh Hrun.
  - by simplify_eq.
  - destruct (step e y) as [y1| |] eqn:Hstep; try done.
    apply (IH y1); [|done].
    destruct (handler_step e y y1 Hstep) as [->|Hmove]; [done|].
    rewrite Hh in Hmove. by destruct (handler y1).
Qed.

(** C6: when the inner select of the handler loop takes the grace-timer
    case, the loop logs its line, calls [Close] on the handed-off connection
    and [handleConnection] returns; whatever happens afterwards, the loop
    stays ended, no connection is handed off, no handshake is run and no
    session is registered. *)
Theorem grace_timeout_ends_admission y c :
  reachable y → handler y = HInner c →
  ∃ y', step EGraceTimeout y = Next y'
    ∧ world (store y') = Conn_Close c (world (store y))
    ∧ logged (store y')
      = (logged (store y)
         ++ [Printf "Close connection %s, only one connection is allowed" c])%list
    ∧ closed y' = c :: closed y ∧ handler y' = HEnd
    ∧ ∀ tr y'', run_events tr y' = Next y'' →
        handler y'' = HEnd ∧ sn (px (store y'')) = None
        ∧ step EHandoff y'' = Disabled ∧ step EEstablish y'' = Disabled.
Proof.
  intros Hy Hh. destruct y as [st h a f ht tok ec n d r cl]. simpl in Hh. subst h.
  eexists. split; [reflexivity|]. simpl. split_and!; [done..|].
  intros tr y'' Hrun.
  assert (Hend : handler y'' = HEnd) by (eapply handler_End_run; [|done]; done).
  assert (Hinv : inv y'').
  { eapply inv_reachable, reachable_run; [|done].
    by eapply (reachable_step EGraceTimeout). }
  destruct Hinv as (_ & Hsn & _). rewrite Hend in Hsn.
  destruct y'' as [st2 h2 a2 f2 ht2 tok2 ec2 n2 d2 r2 cl2]; simpl in *; subst.
  split_and!; try done. by destruct a2.
Qed.

(** C4: [newSession] returns with the slot empty.  When the handshake
    fails it returns at once and leaves the proxy's fields as they were;
    a session that was registered is cleared, with the mutex released,
    whichever case the select takes; both cases can be taken (the timer case
    once the ping timer has ticked); and whenever the handler loop is back
    from [exec(conn)] the slot is empty. *)
Theorem newSession_returns_with_empty_slot y :
  reachable y →
  (∀ c err w, handler y = HExec c →
     daemon_NewSession c (world (store y)) = (inl err, w) →
     ∃ y', step EEstablish y = Next y' ∧ handler y' = HBack
       ∧ px (store y') = px (store y) ∧ sn (px (store y')) = None)
  ∧ (∀ c sp r y', handler y = HSession c sp → step (ESessionEnd r) y = Next y' →
       handler y' = HBack ∧ sn (px (store y')) = None ∧ mu (px (store y')) = false)
  ∧ (∀ c sp, handler y = HSession c sp → ∃ y', step (ESessionEnd RunFirst) y = Next y')
  ∧ (∀ c sp t tm, handler y = HSession c sp →
       pingTimer (px (store y)) = Some t → timers (store y) !! t = Some tm →
       tick tm = true →
       ∃ y', step (ESessionEnd TimerFirst) y = Next y')
  ∧ (handler y = HBack → sn (px (store y)) = None).
Proof.
  intros Hy. pose proof (inv_reachable y Hy) as Hinv.
  destruct y as [st h a f ht tok ec n d r cl].
  destruct Hinv as (Hmu & Hsn & Htm & _). simpl in *. split_and!.
  - intros c err w -> Hhs. pose proof (establish_spec st c Hmu) as Hspec.
    rewrite Hhs in Hspec. unfold exec. simpl. rewrite Hspec. simpl.
    eexists. split_and!; done.
  - intros c sp r0 y' -> Hstep.
    apply exec_Next in Hstep as (? & st' & Haw & [= <-]). simpl in *.
    apply await_spec in Haw; [|done]. rewrite Haw. simpl. by rewrite Hmu.
  - intros c sp ->. destruct (await_RunFirst_returns st c sp Hmu Htm) as [st' Hst'].
    unfold exec. simpl. rewrite Hst'. eauto.
  - intros c sp t tm -> Ht Htm' Htick. unfold exec. simpl.
    destruct (await_TimerFirst_returns st c sp t tm) as [st' Hst']; try done.
    rewrite Hst'. eauto.
  - by intros ->.
Qed.

(** C2, as amended: [newSession] never stops or drains its ping
    timer.  In every run: a handshake that fails makes no timer and leaves
    [px.pingTimer] alone; a handshake that succeeds adds one fresh armed
    timer, leaves the others as they are and points [px.pingTimer] to it;
    when [sn.Run()] returns first, [newSession] returns with every timer
    exactly as it was (the ping timer still armed if it has not fired, its
    tick still in [C] if it has); the timer case is taken only when a tick
    is in [C]: the tick is received and the timer is otherwise as it was
    (armed again if [ResetPingTimer] was called after it fired). *)
Theorem newSession_pingTimer y :
  reachable y →
  (∀ c, handler y = HExec c →
     ∃ y', step EEstablish y = Next y'
       ∧ match (daemon_NewSession c (world (store y))).1 with
         | inl _ =>
             handler y' = HBack
             ∧ timers (store y') = timers (store y)
             ∧ pingTimer (px (store y')) = pingTimer (px (store y))
         | inr sp =>
             handler y' = HSession c sp
             ∧ timers (store y) !! fresh (dom (timers (store y))) = None
             ∧ timers (store y')
               = <[fresh (dom (timers (store y))) := timer_new]> (timers (store y))
             ∧ pingTimer (px (store y')) = Some (fresh (dom (timers (store y))))
         end)
  ∧ (∀ c sp, handler y = HSession c sp →
       ∃ y', step (ESessionEnd RunFirst) y = Next y'
         ∧ handler y' = HBack
         ∧ timers (store y') = timers (store y)
         ∧ pingTimer (px (store y')) = pingTimer (px (store y)))
  ∧ (∀ c sp y', handler y = HSession c sp →
       step (ESessionEnd TimerFirst) y = Next y' →
       ∃ t tm,
         pingTimer (px (store y)) = Some t
         ∧ timers (store y) !! t = Some tm ∧ tick tm = true
         ∧ handler y' = HBack
         ∧ timers (store y')
           = <[t := mkTimer (armed tm) false]> (timers (store y))
         ∧ pingTimer (px (store y')) = Some t)
  ∧ (∀ c sp t tm, handler y = HSession c sp →
       pingTimer (px (store y)) = Some t → timers (store y) !! t = Some tm →
       tick tm = true →
       ∃ y', step (ESessionEnd TimerFirst) y = Next y').
Proof.
  intros Hy. pose proof (inv_reachable y Hy) as Hinv.
  destruct y as [st h a f ht tok ec n d r cl].
  destruct Hinv as (Hmu & Hsn & Htm & _). simpl in *. split_and!.
  - intros c ->. pose proof (establish_spec st c Hmu) as Hspec.
    unfold exec. simpl.
    destruct (daemon_NewSession c (world st)) as [[err|sp] w'];
      rewrite Hspec; simpl; (eexists; split; [reflexivity|]); simpl;
      split_and!; try done.
    apply not_elem_of_dom, is_fresh.
  - intros c sp ->. destruct (await_RunFirst_effect st c sp Hmu Htm) as [lg Hst'].
    unfold exec. simpl. rewrite Hst'. simpl. eexists. by split_and!.
  - intros c sp y' -> Hstep.
    apply exec_Next in Hstep as (a0 & st' & Haw & [= <-]).
    apply await_TimerFirst_effect in Haw
      as (t & tm & Ht & Htm' & Htick & Hts & _ & Hpx & _); [|done].
    exists t, tm. simpl. rewrite Hts, Hpx. simpl. by split_and!.
  - intros c sp t tm -> Ht Htm' Htick. unfold exec. simpl.
    destruct (await_TimerFirst_returns st c sp t tm) as [st' Hst']; try done.
    rewrite Hst'. eauto.
Qed.

(** Every event but a handshake that succeeds leaves [px.pingTimer] alone. *)
Lemma pingTimer_step e y y' :
  inv y → step e y = Next y' → establishes e y = false →
  pingTimer (px (store y')) = pingTimer (px (store y)).
Proof.
  intros Hinv Hstep Hest.
  assert (Hmu : mu (px (store y)) = false) by apply Hinv. clear Hinv.
  destruct y as [st h a f ht tok ec n d r cl].
  destruct e; simpl in Hstep.
  - destruct a; try done. by case_match; simplify_eq.
  - destruct a; try done. case_match.
    + by simplify_eq.
    + apply exec_Next in Hstep as (? & st' & Hlog & ->%enter_Accept_Next).
      apply log_line_spec in Hlog. simpl. by rewrite Hlog.
  - destruct a; try done. by apply enter_Accept_Next in Hstep as ->.
  - destruct a, h; try done; by apply enter_Accept_Next in Hstep as ->.
  - destruct h; try done. by case_match; simplify_eq.
  - destruct h; try done. by simplify_eq.
  - destruct h; try done. simpl in *. by case_match; simplify_eq.
  - destruct h; try done.
    apply exec_Next in Hstep as (r' & st' & Hst' & [= <-]). simpl in *.
    pose proof (establish_spec st conn Hmu) as Hspec.
    unfold establishes in Hest. simpl in Hest.
    destruct (daemon_NewSession conn (world st)) as [[err|sp] w']; [|done].
    rewrite Hst' in Hspec. by simplify_eq.
  - apply exec_Next in Hstep as (? & st' & Hf & [= <-]).
    apply runtime_fire_spec in Hf. simpl. by rewrite Hf.
  - destruct h; try done.
    apply exec_Next in Hstep as (? & st' & Haw & [= <-]).
    apply await_spec in Haw; [|done]. simpl. by rewrite Haw.
  - destruct h; try done. simpl in *. by case_match; simplify_eq.
  - destruct f; try done. simpl in *. by case_match; simplify_eq.
  - destruct ht; try done. simpl in *.
    by destruct r0 as [err|]; [case_match|]; simplify_eq.
  - destruct ht, ec; try done. simpl in *. by simplify_eq.
  - simpl in *. by destruct n, d; simplify_eq.
  - simpl in *. destruct r; try done.
    destruct by_done.
    + destruct d; try done. case_match; simplify_eq/=; [done|].
      apply exec_Next in Hstep as (? & st' & Hlog & [= <-]).
      apply log_line_spec in Hlog. simpl. by rewrite Hlog.
    + destruct ec; try done. case_match; simplify_eq/=; [done|].
      apply exec_Next in Hstep as (? & st' & Hlog & [= <-]).
      apply log_line_spec in Hlog. simpl. by rewrite Hlog.
  - apply exec_Next in Hstep as (? & st' & Hsh & [= <-]).
    apply Shutdown_spec in Hsh as [Hq Hpx]; [|done]. simpl. by rewrite Hpx.
  - simpl in *. pose proof (call_px c st Hmu) as Hpx.
    destruct (call c st) as [[| |] st'] eqn:Hc; simplify_eq/=; by rewrite Hpx.
Qed.

Lemma pingTimer_run tr y y' :
  inv y → run_events tr y = Next y' → no_session_established tr y = true →
  pingTimer (px (store y')) = pingTimer (px (store y)).
Proof.
  revert y. induction tr as [|e tr IH]; simpl; intros y Hinv Hrun Hq.
  - by simplify_eq.
  - destruct (step e y) as [y1| |] eqn:Hstep; try done.
    apply andb_prop in Hq as [He%negb_true_iff Hq].
    rewrite (IH y1); eauto using inv_step, pingTimer_step.
Qed.

(** C10: [New] leaves [pingTimer] nil and nothing but a successful
    handshake in [newSession] assigns it; so as long as no handshake has
    succeeded, whatever else has happened, [ResetPingTimer] dereferences
    nil and panics. *)
Theorem ResetPingTimer_before_first_session cfg p listen_ok (w : W) tr y :
  New cfg false = Ok p →
  run_events tr (Run_start listen_ok p w) = Next y →
  no_session_established tr (Run_start listen_ok p w) = true →
  pingTimer (px (store y)) = None
  ∧ ResetPingTimer (store y) = (Panic nil_deref, store y).
Proof.
  intros Hnew Hrun Hq.
  assert (Hpt : pingTimer (px (store y)) = None).
  { rewrite (pingTimer_run tr (Run_start listen_ok p w) y); eauto using inv_Run_start.
    apply New_fields in Hnew as ->. unfold Run_start. simpl.
    by destruct (WithoutTeller cfg), listen_ok. }
  split; [done|]. by apply ResetPingTimer_nil.
Qed.

(** X11: [Run] returns nil only after every goroutine it started has
    returned. *)
Lemma Run_nil_after_join y :
  reachable y → returned y = Some None →
  handler y = HEnd ∧ acceptor y = AEnd ∧ funnel y = FEnd ∧ http y = HttpEnd.
Proof.
  intros Hinv%inv_reachable Hret.
  destruct Hinv as (_ & _ & _ & _ & Hwg & Hdone & Hr & _).
  specialize (Hdone (Hr Hret)). rewrite Hdone in Hwg. unfold running_workers in Hwg.
  destruct (handler y), (acceptor y), (funnel y), (http y); simpl in Hwg; done.
Qed.

(** While the token-taking select of the handler loop is reached, the
    token is in [execFuncC]. *)
Lemma token_ready_at_inner_select y c :
  reachable y → handler y = HInner c → execFuncC y = true.
Proof.
  intros Hinv%inv_reachable Hh. destruct Hinv as (_ & _ & _ & Htok & _).
  by rewrite Hh in Htok.
Qed.
End GoroutineResults.

Section MoreResults.
Context {W : Type} `{!Daemon W}.
Implicit Types (s : St W) (y : Sys W) (e : Event) (w : W).

(** X12: with the teller enabled [done] is not closed before [quit] is:
    until [Shutdown] is called, [Run] cannot return nil. *)
Lemma Run_not_nil_before_quit y :
  reachable y →
  withoutTeller (px (store y)) = false → quit (px (store y)) = false →
  returned y = None →
  step (ERunReturn true) y = Disabled.
Proof.
  intros Hinv%inv_reachable Hwt Hq Hret.
  destruct Hinv as (_ & _ & _ & _ & Hwg & Hdone & _ & Hacc).
  specialize (Hacc Hwt Hq Hret). simpl. rewrite Hret.
  destruct (done y); [|done]. specialize (Hdone eq_refl).
  rewrite Hdone in Hwg. unfold running_workers in Hwg.
  destruct (handler y), (acceptor y), (funnel y), (http y); simpl in Hwg; done.
Qed.
End MoreResults.


(** * Results on strand *)

Section FunnelResults.
Context {D : Type}.
Implicit Types (subs : list (list (D → D))) (y : Funnel.State (D:=D)) (d : D).

Lemma strand_inv_init subs d : Funnel.inv subs d (Funnel.init subs d).
Proof.
  unfold Funnel.inv, Funnel.init, Funnel.running, Funnel.progress. simpl.
  split_and!; try done.
  - constructor.
  - intros i _. set_solver.
  - intros i [[=] _]%lookup_replicate.
  - intros i Hi. set_solver.
Qed.

Lemma stmts_lookup subs i f k :
  subs !! i = Some f → (k < length f)%nat →
  Funnel.stmts subs i !! k = Some (i, k).
Proof.
  intros Hf Hk. unfold Funnel.stmts. rewrite Hf. simpl.
  rewrite list_lookup_fmap, lookup_seq_lt by done. done.
Qed.

Lemma stmts_length subs i f :
  subs !! i = Some f → length (Funnel.stmts subs i) = length f.
Proof.
  intros Hf. unfold Funnel.stmts. rewrite Hf. simpl.
  by rewrite length_fmap, length_seq.
Qed.

Lemma strand_inv_step subs d e y y' :
  Funnel.inv subs d y → Funnel.step subs e y = Some y' → Funnel.inv subs d y'.
Proof.
  intros (Hh & Hran & Hdata & Hnd & Hsend & Hdone & Hsub & Hw) Hstep.
  destruct y as [dt cs wk q hd cq rn].
  unfold Funnel.inv, Funnel.running, Funnel.progress in *. simpl in *.
  destruct e as [i| |i| |]; simpl in Hstep.
  - (* Recv *)
    destruct wk; try done.
    destruct (cs !! i) as [[| |]|] eqn:Hc; try done.
    destruct (subs !! i) as [f|] eqn:Hf; try done. simplify_eq/=.
    rewrite app_nil_r in *. split_and!; try done.
    + apply NoDup_app. split_and!; [done| |apply NoDup_singleton].
      intros j Hj ->%list_elem_of_singleton. by eapply Hsend.
    + intros j Hj. destruct (decide (i = j)) as [->|Hne].
      * rewrite list_lookup_insert_eq in Hj by (eapply lookup_lt_Some, Hc). done.
      * rewrite list_lookup_insert_ne in Hj by done.
        rewrite elem_of_app, list_elem_of_singleton.
        intros [Hin|Heq]; [by eapply Hsend|done].
    + intros j Hj. destruct (decide (i = j)) as [->|Hne].
      * rewrite list_lookup_insert_eq in Hj by (by eapply lookup_lt_Some). done.
      * rewrite list_lookup_insert_ne in Hj by done. eauto.
    + intros j [Hj| ->%list_elem_of_singleton]%elem_of_app; eauto.
    + exists f. split_and!; [done|done|lia].
  - (* Stmt *)
    destruct wk as [|i k [|a rest]|]; try done; simplify_eq/=.
    + (* the function has returned *)
      destruct Hw as (f & Hf & Hrest & Hk).
      assert (k = length f) as ->.
      { symmetry in Hrest. apply drop_nil_inv in Hrest. lia. }
      rewrite !app_nil_r in *. rewrite bind_app. simpl. rewrite app_nil_r.
      rewrite take_ge by (by erewrite stmts_length). split_and!; try done.
      intros j Hj. apply elem_of_app. left. eauto.
    + destruct Hw as (f & Hf & Hrest & Hk).
      assert (Hfk : f !! k = Some a).
      { rewrite <- (Nat.add_0_r k), <- lookup_drop, <- Hrest. done. }
      pose proof (lookup_lt_Some _ _ _ Hfk) as Hlt.
      rewrite !app_nil_r in *. split_and!; try done.
      * rewrite (take_S_r _ _ (i, k)) by (by eapply stmts_lookup).
        by rewrite (assoc_L (++)).
      * unfold Funnel.effect. rewrite !foldl_app. simpl. rewrite Hf. simpl.
        by rewrite Hfk.
      * exists f. split_and!; [done| |lia].
        rewrite <- (Nat.add_1_r k), <- drop_drop, <- Hrest. done.
  - (* Return *)
    destruct (cs !! i) as [[| |]|] eqn:Hc; try done.
    case_bool_decide; simplify_eq/=. split_and!; try done.
    + intros j Hj. destruct (decide (i = j)) as [->|Hne].
      * rewrite list_lookup_insert_eq in Hj by (by eapply lookup_lt_Some). done.
      * rewrite list_lookup_insert_ne in Hj by done. eauto.
    + intros j Hj. destruct (decide (i = j)) as [->|Hne]; [done|].
      rewrite list_lookup_insert_ne in Hj by done. eauto.
  - destruct q; simplify_eq/=. done.
  - destruct wk; try done. destruct q; simplify_eq/=. done.
Qed.

Lemma strand_inv_run subs d tr y y' :
  Funnel.inv subs d y → Funnel.run subs tr y = Some y' → Funnel.inv subs d y'.
Proof.
  revert y. induction tr as [|e tr IH]; simpl; intros y Hinv Hrun.
  - by simplify_eq.
  - destruct (Funnel.step subs e y) as [y1|] eqn:Hstep; try done.
    eauto using strand_inv_step.
Qed.

(** C8: in every run of callers of [strand] against the one worker,
    with a submission counted when its send on [px.reqC] completes: the
    submissions that have completed are the first of those submitted, in the
    same order, and at most the next one is under way; the statements
    executed are exactly theirs, each submission's in one piece and in
    program order, one submission after the other; the data is what these
    statements make of it; no submission is run twice; and a caller has
    returned from [strand] only after its own submission has completed. *)
Theorem strand_total_order subs d tr y :
  Funnel.run subs tr (Funnel.init subs d) = Some y →
  Funnel.handed y = (Funnel.closedq y ++ Funnel.running y)%list
  ∧ Funnel.ran y
    = ((Funnel.closedq y ≫= Funnel.stmts subs)
       ++ take (Funnel.progress y) (Funnel.running y ≫= Funnel.stmts subs))%list
  ∧ Funnel.data y = Funnel.effect subs (Funnel.ran y) d
  ∧ NoDup (Funnel.handed y)
  ∧ (∀ i, Funnel.callers y !! i = Some Funnel.CDone → i ∈ Funnel.closedq y).
Proof.
  intros Hrun.
  destruct (strand_inv_run subs d tr _ y (strand_inv_init subs d) Hrun)
    as (Hh & Hran & Hdata & Hnd & _ & Hdone & _).
  done.
Qed.

End FunnelResults.

Lemma effect_increments (N : nat) (l : list nat) (d : Z) :
  (∀ i, i ∈ l → (i < N)%nat) →
  Funnel.effect (replicate N [Z.succ]) (l ≫= Funnel.stmts (replicate N [Z.succ])) d
  = (d + Z.of_nat (length l))%Z.
Proof.
  revert d. induction l as [|i l IH]; intros d Hl; simpl.
  - unfold Funnel.effect. simpl. lia.
  - assert (Hi : (i < N)%nat) by (apply Hl; set_solver).
    unfold Funnel.effect in *. rewrite foldl_app.
    rewrite IH by (intros j Hj; apply Hl; set_solver).
    unfold Funnel.stmts. rewrite lookup_replicate_2 by done. simpl.
    rewrite lookup_replicate_2 by done. simpl. lia.
Qed.

(** X14: the check the funnel is meant to pass: [N] callers each submit
    one increment of a counter; once they have all returned the counter has
    gone up by [N]. *)
Lemma strand_counter (N : nat) (c0 : Z) tr y :
  Funnel.run (replicate N [Z.succ]) tr (Funnel.init (replicate N [Z.succ]) c0) = Some y →
  (∀ i, (i < N)%nat → Funnel.callers y !! i = Some Funnel.CDone) →
  Funnel.data y = (c0 + Z.of_nat N)%Z.
Proof.
  intros Hrun Hall.
  destruct (strand_inv_run _ c0 tr _ y (strand_inv_init _ c0) Hrun)
    as (Hh & Hran & Hdata & Hnd & _ & Hdone & Hsub & Hw).
  assert (Hlt : ∀ i, i ∈ Funnel.handed y → (i < N)%nat).
  { intros i [f Hf]%Hsub. apply lookup_replicate in Hf. lia. }
  assert (Hidle : Funnel.running y = []).
  { unfold Funnel.running in *. destruct (Funnel.worker y) as [|i k rest|]; try done.
    rewrite Hh in Hnd. apply NoDup_app in Hnd as (_ & Hni & _).
    exfalso. apply (Hni i); [|by apply list_elem_of_singleton].
    apply Hdone, Hall, Hlt. rewrite Hh.
    apply elem_of_app. right. by apply list_elem_of_singleton. }
  rewrite Hidle, app_nil_r in Hh. rewrite Hidle in Hran. simpl in Hran.
  rewrite take_nil, app_nil_r in Hran.
  rewrite Hdata, Hran, effect_increments by (intros i Hi; apply Hlt; by rewrite Hh).
  assert (Funnel.closedq y ≡ₚ seq 0 N) as ->.
  { apply NoDup_Permutation; [by rewrite <- Hh|apply NoDup_seq|].
    intros i. rewrite elem_of_seq. split.
    - intros Hi. rewrite <- Hh in Hi. apply Hlt in Hi. lia.
    - intros [_ Hi]. apply Hdone, Hall. lia. }
  by rewrite length_seq.
Qed.

(** * Concrete runs *)

(** C7: a run without the teller in which the HTTP layer fails although
    [Shutdown] was never called.  The worker puts the error into [errC] and
    returns; it was the only goroutine in [wg], so [done] is closed as
    well; the select at the end of [Run] then has both cases ready, and when
    it takes [done], [Run] returns nil while the error stays in [errC]. *)
Theorem Run_drops_http_error :
  New cfg_withoutTeller false = Ok proxy_withoutTeller
  ∧ ∃ y,
      run_events
        [EHttpReturn (Some "listen tcp: address already in use"); EHttpSend;
         EJoin; ERunReturn true]
        (Run_start true proxy_withoutTeller mux0) = Next y
      ∧ quit (px (store y)) = false
      ∧ errC y = Some "listen tcp: address already in use"
      ∧ returned y = Some None.
Proof.
  split; [by vm_compute|].
  exists (mkSys (start proxy_withoutTeller mux0) HEnd AEnd FEnd HttpEnd false
            (Some "listen tcp: address already in use") 0 true (Some None) []).
  split_and!; by vm_compute.
Qed.

(** A second way in which [Run] does not come to return nil after
    [Shutdown]: the accept loop holds a connection at its select when
    [Shutdown] sets [px.ln] to nil; when its grace timer fires it closes the
    connection, comes round to [px.ln.Accept()] and panics. *)
Lemma Shutdown_with_waiting_connection_crashes :
  acceptor (sys_after (tr_busy ++ [EShutdown])) = AOffer 2%nat
  ∧ step EOfferTimeout (sys_after (tr_busy ++ [EShutdown])) = Crashed.
Proof. split; by vm_compute. Qed.

Lemma write_no_session_panics_witness :
  write 7%nat (start proxy0 mux0) = (Panic nil_deref, start proxy0 mux0).
Proof.
  apply (write_no_session_panics (start proxy0 mux0) 7%nat); by vm_compute.
Defined.

Lemma write_discards_session_error_witness :
  (Session_Write 0%nat 7%nat (world st_closed)).1 = Some "session closed"
  ∧ write 7%nat st_closed
    = (Ok None,
       mkSt (px st_closed) (timers st_closed)
         (Session_Write 0%nat 7%nat (world st_closed)).2 (logged st_closed)).
Proof.
  split; [by vm_compute|].
  apply (write_discards_session_error st_closed 0%nat 7%nat); by vm_compute.
Defined.

(** Against C5 as stated: session 0 is registered and a stream is opened
    on it; the session ends, and the session of the next peer is registered;
    the close function of the stream is called then, and removes a handler
    from the multiplexer. *)
Lemma stale_close_unsubscribes :
  ∃ id cf s1 s3,
    openStream 5%nat st_session = (Ok (id, cf, None), s1)
    ∧ sn (px st_session) = Some 0%nat
    ∧ sn (px (replace_session s1)) = Some 1%nat
    ∧ handlers (world (replace_session s1)) !! id = Some 5%nat
    ∧ call_closeStream cf (replace_session s1) = (Ok tt, s3)
    ∧ handlers (world s3) !! id = None.
Proof.
  exists 0, (Some (openStream_cf 0)), (openStream 5%nat st_session).2,
    (openStream_cf 0 (replace_session (openStream 5%nat st_session).2)).2.
  split_and!; by vm_compute.
Qed.

Lemma closeStream_stale_witness :
  call_closeStream (Some (openStream_cf 0))
    (replace_session (openStream 5%nat st_session).2)
  = (Ok tt,
     let s2 := replace_session (openStream 5%nat st_session).2 in
     mkSt (px s2) (timers s2)
       (match sn (px s2) with
        | Some p' => Session_Unsub p' 0 (world s2)
        | None => world s2
        end)
       (logged s2 ++ [Debugln "Close stream:" (Some 0)])).
Proof.
  apply (closeStream_stale st_session 5%nat 0 (Some (openStream_cf 0))
           (openStream 5%nat st_session).2); by vm_compute.
Defined.

Lemma reachable_sys_after tr y :
  run_events tr (Run_start true proxy0 mux0) = Next y → reachable y.
Proof. intros Hrun. exists cfg0, proxy0, true, mux0, tr. split; [by vm_compute|done]. Defined.

(** Against C2 as stated: the session's [Run] returns before the ping
    timer fires; [newSession] has returned (the handler loop is back from
    [exec(conn)]) and the timer is still armed.  It is armed too after a run
    in which the timer fired, [ResetPingTimer] re-armed it and the select
    took the tick. *)
Lemma newSession_leaves_timer_armed :
  reachable (sys_after tr_run_first)
  ∧ run_events tr_run_first (Run_start true proxy0 mux0)
    = Next (sys_after tr_run_first)
  ∧ handler (sys_after tr_run_first) = HBack
  ∧ pingTimer (px (store (sys_after tr_run_first))) = Some 0%nat
  ∧ timers (store (sys_after tr_run_first)) !! 0%nat = Some (mkTimer true false)
  ∧ run_events tr_reset (Run_start true proxy0 mux0) = Next (sys_after tr_reset)
  ∧ handler (sys_after tr_reset) = HBack
  ∧ pingTimer (px (store (sys_after tr_reset))) = Some 0%nat
  ∧ timers (store (sys_after tr_reset)) !! 0%nat = Some (mkTimer true false).
Proof.
  split; [apply (reachable_sys_after tr_run_first)|split_and!]; by vm_compute.
Qed.

Lemma newSession_pingTimer_witness :
  ∃ y', step (ESessionEnd RunFirst) (sys_after tr_busy) = Next y'
    ∧ handler y' = HBack
    ∧ timers (store y') = timers (store (sys_after tr_busy))
    ∧ pingTimer (px (store y')) = pingTimer (px (store (sys_after tr_busy))).
Proof.
  assert (Hr : reachable (sys_after tr_busy)).
  { apply (reachable_sys_after tr_busy). by vm_compute. }
  apply (proj1 (proj2 (newSession_pingTimer _ Hr)) 1%nat 0%nat). by vm_compute.
Defined.

(** Against C3 as stated: peer 2 is accepted while the session of peer 1
    is registered; the session ends before the acceptor's grace timer fires,
    and peer 2 is handed off and gets its session: it was not closed. *)
Lemma waiting_connection_admitted :
  ∃ y,
    sn (px (store (sys_after tr_busy))) = Some 0%nat
    ∧ acceptor (sys_after tr_busy) = AOffer 2%nat
    ∧ run_events [ESessionEnd RunFirst; ERecycle; EHandoff; ETakeExec; EEstablish]
        (sys_after tr_busy) = Next y
    ∧ handler y = HSession 2%nat 1%nat
    ∧ sn (px (store y)) = Some 1%nat
    ∧ closed y = [].
Proof.
  exists (sys_after (tr_busy ++ [ESessionEnd RunFirst; ERecycle; EHandoff; ETakeExec; EEstablish])).
  split_and!; by vm_compute.
Qed.

Lemma one_session_at_a_time_witness :
  ∃ y',
    run_events [ERecycle; EHandoff; ETakeExec]
      (sys_after (tr_busy ++ [ESessionEnd RunFirst])) = Next y'
    ∧ handler y' = HExec 2%nat ∧ acceptor y' = AAccept
    ∧ store y' = store (sys_after (tr_busy ++ [ESessionEnd RunFirst]))
    ∧ sn (px (store y')) = None
    ∧ closed y' = closed (sys_after tr_busy)
    ∧ ∃ y'', step EEstablish y' = Next y''
        ∧ ∀ sp', (daemon_NewSession 2%nat (world (store y'))).1 = inr sp' →
            handler y'' = HSession 2%nat sp' ∧ sn (px (store y'')) = Some sp'.
Proof.
  assert (Hr : reachable (sys_after tr_busy)).
  { apply (reachable_sys_after tr_busy). by vm_compute. }
  apply (proj2 (proj1 (proj2 (proj2 (one_session_at_a_time _ Hr))) 0%nat 2%nat
                  eq_refl eq_refl eq_refl (ex_intro _ 0%nat eq_refl))
           RunFirst (sys_after (tr_busy ++ [ESessionEnd RunFirst]))).
  by vm_compute.
Defined.

Lemma newSession_returns_with_empty_slot_witness :
  handler (sys_after tr_timeout) = HBack
  ∧ sn (px (store (sys_after tr_timeout))) = None
  ∧ mu (px (store (sys_after tr_timeout))) = false.
Proof.
  assert (Hr : reachable (sys_after (tr_busy ++ [EFire 0%nat]))).
  { apply (reachable_sys_after (tr_busy ++ [EFire 0%nat])). by vm_compute. }
  apply (proj1 (proj2 (newSession_returns_with_empty_slot _ Hr))
           1%nat 0%nat TimerFirst); by vm_compute.
Defined.

Lemma grace_timeout_ends_admission_witness :
  ∃ y', step EGraceTimeout (sys_after tr_inner) = Next y'
    ∧ world (store y') = Conn_Close 1%nat (world (store (sys_after tr_inner)))
    ∧ logged (store y')
      = (logged (store (sys_after tr_inner))
         ++ [Printf "Close connection %s, only one connection is allowed" 1%nat])%list
    ∧ closed y' = 1%nat :: closed (sys_after tr_inner) ∧ handler y' = HEnd
    ∧ ∀ tr y'', run_events tr y' = Next y'' →
        handler y'' = HEnd ∧ sn (px (store y'')) = None
        ∧ step EHandoff y'' = Disabled ∧ step EEstablish y'' = Disabled.
Proof.
  apply (grace_timeout_ends_admission (sys_after tr_inner) 1%nat).
  - apply (reachable_sys_after tr_inner). by vm_compute.
  - by vm_compute.
Defined.

Lemma ResetPingTimer_before_first_session_witness :
  pingTimer (px (store (sys_after tr_failed))) = None
  ∧ ResetPingTimer (store (sys_after tr_failed))
    = (Panic nil_deref, store (sys_after tr_failed)).
Proof.
  apply (ResetPingTimer_before_first_session cfg0 proxy0 true mux0 tr_failed);
    by vm_compute.
Defined.

Lemma strand_total_order_witness :
  Funnel.handed two_done = (Funnel.closedq two_done ++ Funnel.running two_done)%list
  ∧ Funnel.ran two_done
    = ((Funnel.closedq two_done ≫= Funnel.stmts two_increments)
       ++ take (Funnel.progress two_done)
            (Funnel.running two_done ≫= Funnel.stmts two_increments))%list
  ∧ Funnel.data two_done = Funnel.effect two_increments (Funnel.ran two_done) 0
  ∧ NoDup (Funnel.handed two_done)
  ∧ (∀ i, Funnel.callers two_done !! i = Some Funnel.CDone
          → i ∈ Funnel.closedq two_done).
Proof.
  apply (strand_total_order two_increments 0 tr_two). by vm_compute.
Defined.


(** * Further results on the methods *)

(** X1: [New] (with an authenticator) returns a proxy exactly for these
    configurations: without an HTTPS address, an HTTP address and no TLS
    setting at all; with an HTTPS address, either an auto-TLS host and
    neither certificate nor key, or no auto-TLS host and both certificate
    and key.  Every other configuration panics. *)
Theorem New_ok_iff cfg :
  (∃ p, New cfg false = Ok p)
  ↔ (HTTPSSrvAddr cfg = "" ∧ HTTPSrvAddr cfg ≠ ""
     ∧ AutoTLSHost cfg = "" ∧ TLSCert cfg = "" ∧ TLSKey cfg = "")
    ∨ (HTTPSSrvAddr cfg ≠ ""
       ∧ ((AutoTLSHost cfg ≠ "" ∧ TLSCert cfg = "" ∧ TLSKey cfg = "")
          ∨ (AutoTLSHost cfg = "" ∧ TLSCert cfg ≠ "" ∧ TLSKey cfg ≠ ""))).
Proof.
  unfold New, is_empty. repeat case_bool_decide; simpl;
    (split;
     [first [by intros [p [=]] | intros _; tauto]
     |first [intros _; eexists; reflexivity | intros Hc; exfalso; tauto]]).
Qed.

Section MoreMethodResults.
Context {W : Type} `{!Daemon W}.
Implicit Types (s : St W) (m : Messager) (f : Handler) (p : SessionPtr).

(** X2: with no session registered and the mutex free,
    [writeWithContext] returns its error and [openStream] returns id 0, its
    error and a close function that does nothing; neither changes the store
    nor keeps the mutex. *)
Theorem fail_fast_without_session s cxt m f :
  sn (px s) = None → mu (px s) = false →
  writeWithContext cxt m s
    = (Ok (Some (errors_New "write failed, session is nil")), s)
  ∧ ∃ cf, openStream f s = (Ok (0, cf, Some (errors_New "session is nil")), s)
      ∧ ∀ s', call_closeStream cf s' = (Ok tt, s').
Proof.
  intros Hsn Hmu. split; [by apply writeWithContext_no_session|].
  exists (Some (mret tt)). split; [by apply openStream_no_session|done].
Qed.

(** X3: with a session registered, [writeWithContext] returns what the
    session's [WriteWithContext] returns, error included, and releases the
    mutex. *)
Theorem writeWithContext_delegates s p cxt m :
  sn (px s) = Some p → mu (px s) = false →
  writeWithContext cxt m s
  = (Ok (Session_WriteWithContext p cxt m (world s)).1,
     mkSt (px s) (timers s) (Session_WriteWithContext p cxt m (world s)).2 (logged s)).
Proof.
  intros Hsn Hmu. destruct s as [[wt l q sp0 t mu0] ts w lg]. simpl in *. subst.
  go_unfold. simpl.
  by destruct (Session_WriteWithContext p cxt m w) as [[e|] w'].
Qed.

(** X4: with a session registered, [openStream] subscribes the handler
    on it and returns the id [Sub] gave with a nil error; its close function,
    called while that session is still in the slot, unsubscribes that same id
    on that same session.  The proxy's fields are as before, the mutex free. *)
Theorem openStream_then_close s p f :
  sn (px s) = Some p → mu (px s) = false →
  ∃ cf s1,
    openStream f s = (Ok ((Session_Sub p f (world s)).1, cf, None), s1)
    ∧ px s1 = px s ∧ world s1 = (Session_Sub p f (world s)).2
    ∧ call_closeStream cf s1
      = (Ok tt,
         mkSt (px s) (timers s)
           (Session_Unsub p (Session_Sub p f (world s)).1
              (Session_Sub p f (world s)).2)
           (logged s ++ [Debugln "Open stream:" (Some (Session_Sub p f (world s)).1)]
              ++ [Debugln "Close stream:" (Some (Session_Sub p f (world s)).1)])).
Proof.
  intros Hsn Hmu.
  destruct s as [[wt l q sp0 t mu0] ts w lg]. simpl in *. subst.
  go_unfold. simpl. destruct (Session_Sub p f w) as [i w']. simpl.
  eexists _, _. split; [reflexivity|]. simpl. split_and!; try done.
  by rewrite <- (assoc_L (++)).
Qed.

(** X5: each of [write], [writeWithContext], [openStream], a stream's
    close function and [ResetPingTimer], entered with the mutex free, leaves
    every field of the proxy as it found it, the mutex free again; also when
    the call panics. *)
Theorem gateway_call_releases_mutex c s :
  mu (px s) = false → px (call c s).2 = px s.
Proof. apply call_px. Qed.

(** X6: after a call of [Shutdown] that returned, a second call
    panics on closing [quit] again, before it touches anything. *)
Theorem Shutdown_twice_panics s a s' :
  mu (px s) = false → Shutdown s = (Ok a, s') →
  Shutdown s' = (Panic "close of closed channel", s').
Proof.
  intros Hmu Hsh. apply Shutdown_spec in Hsh as [_ Hpx]; [|done].
  unfold Shutdown. go_unfold. simpl. rewrite Hpx. by destruct (px s).
Qed.
End MoreMethodResults.

(** * Further results on the goroutines *)


Section MoreGoroutineResults.
Context {W : Type} `{!Daemon W}.
Implicit Types (s : St W) (y : Sys W) (e : Event) (w : W).

Lemma Shutdown_effect s :
  mu (px s) = false → quit (px s) = false →
  Shutdown s
  = (Ok tt,
     mkSt (set_ln None (set_quit true (px s))) (timers s)
       (match sn (px s) with
        | Some p => Session_Close p (world s)
        | None => world s
        end)
       (logged s)).
Proof.
  intros Hmu Hq. destruct s as [[wt l q sp t mu0] ts w lg]. simpl in *. subst.
  go_unfold. simpl. by destruct l, sp.
Qed.

Lemma ResetPingTimer_set s :
  is_Some (pingTimer (px s)) → ∃ s', ResetPingTimer s = (Ok tt, s').
Proof. intros [t Ht]. go_unfold. simpl. rewrite Ht. simpl. eauto. Qed.

Lemma write_with_session s p m :
  sn (px s) = Some p → mu (px s) = false → (write m s).1 = Ok None.
Proof.
  intros Hsn Hmu. destruct s as [[wt l q sp t mu0] ts w lg]. simpl in *. subst.
  go_unfold. simpl. by destruct (Session_Write p m w).
Qed.

#[local] Opaque newSession_establish newSession_await Shutdown call runtime_fire log_line.

(** How an event changes the fields of the proxy. *)
Lemma px_step e y y' :
  inv y → step e y = Next y' →
  px (store y') = px (store y)
  ∨ (∃ sp t, px (store y') = set_pingTimer (Some t) (set_sn (Some sp) (px (store y))))
  ∨ px (store y') = set_sn None (px (store y))
  ∨ (quit (px (store y)) = false
     ∧ px (store y') = set_ln None (set_quit true (px (store y)))).
Proof.
  intros Hinv Hstep.
  assert (Hmu : mu (px (store y)) = false) by apply Hinv. clear Hinv.
  destruct y as [st h a f ht tok ec n d r cl].
  destruct e; simpl in Hstep.
  - destruct a; try done. case_match; simplify_eq. by left.
  - destruct a; try done. case_match.
    + simplify_eq. by left.
    + apply exec_Next in Hstep as (? & st' & Hlog & ->%enter_Accept_Next).
      apply log_line_spec in Hlog. by left.
  - destruct a; try done. apply enter_Accept_Next in Hstep as ->. by left.
  - destruct a, h; try done; apply enter_Accept_Next in Hstep as ->. by left.
  - destruct h; try done. case_match; simplify_eq. by left.
  - destruct h; try done. simplify_eq. by left.
  - destruct h; try done. simpl in *. case_match; simplify_eq. by left.
  - destruct h; try done.
    apply exec_Next in Hstep as (r' & st' & Hst' & [= <-]). simpl in *.
    pose proof (establish_spec st conn Hmu) as Hspec.
    destruct (daemon_NewSession conn (world st)) as [[err|sp] w'];
      rewrite Hst' in Hspec; simplify_eq/=; [by left|right; left; eauto].
  - apply exec_Next in Hstep as (? & st' & Hf & [= <-]).
    apply runtime_fire_spec in Hf. by left.
  - destruct h; try done.
    apply exec_Next in Hstep as (? & st' & Haw & [= <-]).
    apply await_spec in Haw; [|done]. by right; right; left.
  - destruct h; try done. simpl in *. case_match; simplify_eq; by left.
  - destruct f; try done. simpl in *. case_match; simplify_eq; by left.
  - destruct ht; try done. simpl in *.
    destruct r0 as [err|]; [case_match|]; simplify_eq; by left.
  - destruct ht, ec; try done. simpl in *. simplify_eq. by left.
  - simpl in *. destruct n, d; simplify_eq. by left.
  - simpl in *. destruct r; try done.
    destruct by_done.
    + destruct d; try done. case_match; simplify_eq/=; [by left|].
      apply exec_Next in Hstep as (? & st' & Hlog & [= <-]).
      apply log_line_spec in Hlog. by left.
    + destruct ec; try done. case_match; simplify_eq/=; [by left|].
      apply exec_Next in Hstep as (? & st' & Hlog & [= <-]).
      apply log_line_spec in Hlog. by left.
  - apply exec_Next in Hstep as (? & st' & Hsh & [= <-]).
    apply Shutdown_spec in Hsh as [Hq Hpx]; [|done]. by right; right; right.
  - simpl in *. pose proof (call_px c st Hmu) as Hpx.
    destruct (call c st) as [[| |] st'] eqn:Hc; simplify_eq/=; by left.
Qed.

(** X8: once [px.pingTimer] has been assigned it is never set back to
    nil, whatever happens afterwards (the session ending, shutdown, further
    sessions); so from then on [ResetPingTimer] returns normally. *)
Theorem pingTimer_stays_set tr y y' :
  reachable y → run_events tr y = Next y' →
  is_Some (pingTimer (px (store y))) →
  is_Some (pingTimer (px (store y')))
  ∧ ∃ s'', ResetPingTimer (store y') = (Ok tt, s'').
Proof.
  intros Hy%inv_reachable Hrun Hpt.
  assert (Hpt' : is_Some (pingTimer (px (store y')))).
  { revert y Hy Hrun Hpt. induction tr as [|e tr IH]; simpl; intros y Hy Hrun Hpt.
    - by simplify_eq.
    - destruct (step e y) as [y1| |] eqn:Hstep; try done.
      apply (IH y1); [by eapply inv_step|done|].
      destruct (px_step e y y1 Hy Hstep) as [->|[(sp & t & ->)|[->|[_ ->]]]];
        simpl; eauto. }
  split; [done|]. by apply ResetPingTimer_set.
Qed.

(** X7: [Shutdown] closes [quit], sets [px.ln] to nil and closes the
    registered session, but leaves it in the slot and leaves the handler loop
    where it is: until [newSession] returns, [write] still hands its message
    to that session and returns nil. *)
Theorem Shutdown_keeps_session y y' :
  reachable y → step EShutdown y = Next y' →
  sn (px (store y')) = sn (px (store y))
  ∧ handler y' = handler y
  ∧ quit (px (store y')) = true ∧ ln (px (store y')) = None
  ∧ world (store y')
    = match sn (px (store y)) with
      | Some p => Session_Close p (world (store y))
      | None => world (store y)
      end
  ∧ ∀ p m, sn (px (store y)) = Some p → (write m (store y')).1 = Ok None.
Proof.
  intros Hinv%inv_reachable Hstep.
  assert (Hmu : mu (px (store y)) = false) by apply Hinv.
  simpl in Hstep. apply exec_Next in Hstep as (a & st' & Hsh & [= <-]).
  pose proof (Shutdown_spec _ _ _ Hmu Hsh) as [Hq _].
  rewrite (Shutdown_effect _ Hmu Hq) in Hsh. simplify_eq/=.
  split_and!; try done. intros p m Hp. apply (write_with_session _ p); simpl; done.
Qed.

(** X9: while [quit] is open, a failed handshake and a session that has
    ended both bring the handler loop back to its outer select with the token
    in [execFuncC] and the slot empty, ready for the next connection. *)
Theorem admission_recycles y :
  reachable y → quit (px (store y)) = false →
  (∀ c err w, handler y = HExec c →
     daemon_NewSession c (world (store y)) = (inl err, w) →
     ∃ y', run_events [EEstablish; ERecycle] y = Next y'
       ∧ handler y' = HOuter ∧ execFuncC y' = true ∧ sn (px (store y')) = None)
  ∧ (∀ c sp, handler y = HSession c sp →
       ∃ y', run_events [ESessionEnd RunFirst; ERecycle] y = Next y'
         ∧ handler y' = HOuter ∧ execFuncC y' = true ∧ sn (px (store y')) = None).
Proof.
  intros Hinv%inv_reachable Hq.
  destruct y as [st h a f ht tok ec n d r cl].
  destruct Hinv as (Hmu & Hsn & Htm & _). simpl in *. split.
  - intros c err w -> Hhs. pose proof (establish_spec st c Hmu) as Hspec.
    rewrite Hhs in Hspec. unfold exec. simpl. rewrite Hspec. simpl. rewrite Hq.
    eexists. split_and!; done.
  - intros c sp ->. destruct (await_RunFirst_returns st c sp Hmu Htm) as [st' Hst'].
    pose proof (await_spec _ _ _ _ _ _ Hmu Hst') as Hpx.
    unfold exec. simpl. rewrite Hst'. simpl. rewrite Hpx. simpl. rewrite Hq.
    eexists. split; [reflexivity|]. simpl. rewrite Hpx. by split_and!.
Qed.

(** X10: [execFuncC] holds the token exactly while the handler loop is
    at one of its selects and is empty while [exec(conn)] runs; so at the
    inner select the token can always be taken, and the send that puts it
    back finds the slot empty. *)
Theorem executor_token_discipline y :
  reachable y →
  match handler y with
  | HOuter => execFuncC y = true
  | HInner c =>
      execFuncC y = true
      ∧ ∃ y', step ETakeExec y = Next y' ∧ handler y' = HExec c
              ∧ execFuncC y' = false
  | HExec _ | HSession _ _ | HBack => execFuncC y = false
  | HEnd => True
  end.
Proof.
  intros Hinv%inv_reachable. destruct Hinv as (_ & _ & _ & Htok & _).
  destruct y as [st h a f ht tok ec n d r cl]. simpl in *.
  destruct h; try done. subst. split; [done|]. eexists. by split_and!.
Qed.

(** X17: the timer case of the select in [newSession] is taken only
    after the ping timer has ticked; it takes the tick, closes the
    connection before the session's [Run] is waited for, and ends with the
    slot empty. *)
Theorem watchdog_closes_connection y c sp y' :
  reachable y → handler y = HSession c sp →
  step (ESessionEnd TimerFirst) y = Next y' →
  ∃ t tm,
    pingTimer (px (store y)) = Some t
    ∧ timers (store y) !! t = Some tm ∧ tick tm = true
    ∧ timers (store y') !! t = Some (mkTimer (armed tm) false)
    ∧ world (store y') = (Session_Run sp (Conn_Close c (world (store y)))).2
    ∧ sn (px (store y')) = None ∧ handler y' = HBack.
Proof.
  intros Hinv%inv_reachable Hh Hstep.
  assert (Hmu : mu (px (store y)) = false) by apply Hinv.
  simpl in Hstep. rewrite Hh in Hstep.
  apply exec_Next in Hstep as (a & st' & Haw & [= <-]).
  apply await_TimerFirst_effect in Haw
    as (t & tm & Ht & Htm & Htick & Hts & Hw & Hpx & _); [|done].
  exists t, tm. simpl. rewrite Hts, Hw, Hpx, lookup_insert_eq. by split_and!.
Qed.

(** X16: a call of [Shutdown] while the accept loop holds a connection
    at its select leaves the loop there; whichever case its select takes
    next, the loop comes round to [px.ln.Accept()] with [px.ln] nil and
    panics. *)
Theorem accept_loop_panics_after_Shutdown y c y' :
  reachable y → acceptor y = AOffer c → step EShutdown y = Next y' →
  acceptor y' = AOffer c
  ∧ step EOfferTimeout y' = Crashed
  ∧ (handler y' = HOuter → step EHandoff y' = Crashed).
Proof.
  intros Hinv%inv_reachable Ha Hstep.
  assert (Hmu : mu (px (store y)) = false) by apply Hinv.
  simpl in Hstep. apply exec_Next in Hstep as (a & st' & Hsh & [= <-]).
  apply Shutdown_spec in Hsh as [_ Hpx]; [|done].
  simpl. rewrite Ha. unfold enter_Accept. simpl. rewrite Hpx. simpl.
  split_and!; [done..|]. by intros ->.
Qed.

(** How an event changes [errC] and what [Run] has returned. *)
Lemma errC_step e y y' :
  step e y = Next y' →
  (errC y' = errC y ∧ returned y' = returned y)
  ∨ (∃ err, e = EHttpSend ∧ http y = HttpSend err ∧ http y' = HttpEnd
       ∧ errC y' = Some err ∧ returned y' = returned y)
  ∨ (e = ERunReturn true ∧ returned y = None ∧ done y = true
       ∧ returned y' = Some None ∧ errC y' = errC y)
  ∨ (∃ err, e = ERunReturn false ∧ returned y = None ∧ errC y = Some err
       ∧ returned y' = Some (Some err) ∧ errC y' = None).
Proof.
  intros Hstep. destruct y as [st h a f ht tok ec n d r cl].
  destruct e; simpl in Hstep.
  - destruct a; try done. case_match; simplify_eq. by left.
  - destruct a; try done. case_match.
    + simplify_eq. by left.
    + apply exec_Next in Hstep as (? & st' & Hlog & ->%enter_Accept_Next). by left.
  - destruct a; try done. apply enter_Accept_Next in Hstep as ->. by left.
  - destruct a, h; try done; apply enter_Accept_Next in Hstep as ->. by left.
  - destruct h; try done. case_match; simplify_eq. by left.
  - destruct h; try done. simplify_eq. by left.
  - destruct h; try done. simpl in *. case_match; simplify_eq. by left.
  - destruct h; try done.
    apply exec_Next in Hstep as (r' & st' & Hst' & [= <-]). by left.
  - apply exec_Next in Hstep as (? & st' & Hf & [= <-]). by left.
  - destruct h; try done.
    apply exec_Next in Hstep as (? & st' & Haw & [= <-]). by left.
  - destruct h; try done. simpl in *. case_match; simplify_eq; by left.
  - destruct f; try done. simpl in *. case_match; simplify_eq; by left.
  - destruct ht; try done. simpl in *.
    destruct r0 as [err|]; [case_match|]; simplify_eq; by left.
  - destruct ht as [|err|], ec; try done. simpl in *. simplify_eq.
    right; left. exists err. by split_and!.
  - simpl in *. destruct n, d; simplify_eq. by left.
  - simpl in *. destruct r; try done.
    destruct by_done.
    + destruct d; try done. right; right; left.
      case_match; simplify_eq/=; [done|].
      apply exec_Next in Hstep as (? & st' & Hlog & [= <-]). done.
    + destruct ec as [err|]; try done. right; right; right. exists err.
      case_match; simplify_eq/=; [done|].
      apply exec_Next in Hstep as (? & st' & Hlog & [= <-]). done.
  - apply exec_Next in Hstep as (? & st' & Hsh & [= <-]). by left.
  - simpl in *. destruct (call c st) as [[| |] st'] eqn:Hc; simplify_eq/=; by left.
Qed.

(** How an event moves the HTTP worker: it passes its select to the send
    only with an error in hand and [quit] open. *)
Lemma http_step e y y' :
  step e y = Next y' →
  http y' = http y
  ∨ (http y = HttpServe ∧ http y' = HttpEnd)
  ∨ (∃ err, e = EHttpReturn (Some err) ∧ http y = HttpServe
       ∧ quit (px (store y)) = false ∧ http y' = HttpSend err)
  ∨ (∃ err, e = EHttpSend ∧ http y = HttpSend err ∧ http y' = HttpEnd).
Proof.
  intros Hstep. destruct y as [st h a f ht tok ec n d r cl].
  destruct e; simpl in Hstep.
  - destruct a; try done. case_match; simplify_eq. by left.
  - destruct a; try done. case_match.
    + simplify_eq. by left.
    + apply exec_Next in Hstep as (? & st' & Hlog & ->%enter_Accept_Next). by left.
  - destruct a; try done. apply enter_Accept_Next in Hstep as ->. by left.
  - destruct a, h; try done; apply enter_Accept_Next in Hstep as ->. by left.
  - destruct h; try done. case_match; simplify_eq. by left.
  - destruct h; try done. simplify_eq. by left.
  - destruct h; try done. simpl in *. case_match; simplify_eq. by left.
  - destruct h; try done.
    apply exec_Next in Hstep as (r' & st' & Hst' & [= <-]). by left.
  - apply exec_Next in Hstep as (? & st' & Hf & [= <-]). by left.
  - destruct h; try done.
    apply exec_Next in Hstep as (? & st' & Haw & [= <-]). by left.
  - destruct h; try done. simpl in *. case_match; simplify_eq; by left.
  - destruct f; try done. simpl in *. case_match; simplify_eq; by left.
  - destruct ht; try done. simpl in *.
    destruct r0 as [err|]; [destruct (quit (px st)) eqn:Hq|]; simplify_eq; simpl;
      [right; by left|right; right; left; eauto|right; by left].
  - destruct ht as [|err|], ec; try done. simpl in *. simplify_eq.
    right; right; right. eauto.
  - simpl in *. destruct n, d; simplify_eq. by left.
  - simpl in *. destruct r; try done.
    destruct by_done.
    + destruct d; try done. case_match; simplify_eq/=; [by left|].
      apply exec_Next in Hstep as (? & st' & Hlog & [= <-]). by left.
    + destruct ec; try done. case_match; simplify_eq/=; [by left|].
      apply exec_Next in Hstep as (? & st' & Hlog & [= <-]). by left.
  - apply exec_Next in Hstep as (? & st' & Hsh & [= <-]). by left.
  - simpl in *. destruct (call c st) as [[| |] st'] eqn:Hc; simplify_eq/=; by left.
Qed.

(** X13: once [quit] is closed with no error pending in [errC] and the
    HTTP worker not between its select and its send on [errC], nothing the
    HTTP layer returns reaches [errC]: the worker never gets to the send,
    and [Run] never returns an error. *)
Theorem http_error_suppressed_after_quit tr y y' :
  reachable y → quit (px (store y)) = true → errC y = None →
  (∀ err, http y ≠ HttpSend err) →
  (∀ err, returned y ≠ Some (Some err)) →
  run_events tr y = Next y' →
  quit (px (store y')) = true ∧ errC y' = None
  ∧ (∀ err, http y' ≠ HttpSend err)
  ∧ ∀ err, returned y' ≠ Some (Some err).
Proof.
  intros Hy%inv_reachable. revert y Hy.
  induction tr as [|e tr IH]; simpl; intros y Hy Hq Hec Hht Hret Hrun.
  - by simplify_eq.
  - destruct (step e y) as [y1| |] eqn:Hstep; try done.
    assert (Hq1 : quit (px (store y1)) = true).
    { destruct (px_step e y y1 Hy Hstep) as [->|[(sp & t & ->)|[->|[Hf _]]]];
        simpl; congruence. }
    apply (IH y1); [by eapply inv_step|done| | | |done].
    + destruct (errC_step e y y1 Hstep)
        as [[-> _]|[(err & _ & Hf & _)|[(_ & _ & _ & _ & ->)|(err & _ & _ & Hf & _)]]];
        [done|by apply Hht in Hf|done|congruence].
    + intros err Hs.
      destruct (http_step e y y1 Hstep)
        as [Heq|[[_ Hf]|[(err' & _ & _ & Hf & _)|(err' & _ & _ & Hf)]]];
        [rewrite Heq in Hs; by apply Hht in Hs|congruence..].
    + destruct (errC_step e y y1 Hstep)
        as [[_ ->]|[(err & _ & _ & _ & _ & ->)|[(_ & _ & _ & -> & _)|(err & _ & _ & Hf & _)]]];
        congruence.
Qed.

(** [errC] has one sender, which sends once: until the HTTP worker has
    returned, [errC] is empty. *)
Lemma errC_empty_step e y y' :
  step e y = Next y' →
  (http y ≠ HttpEnd → errC y = None) → http y' ≠ HttpEnd → errC y' = None.
Proof.
  intros Hstep Hy Hht'.
  assert (Hht : http y ≠ HttpEnd).
  { destruct (http_step e y y' Hstep)
      as [Heq|[[Hs _]|[(err & _ & Hs & _)|(err & _ & Hs & _)]]]; congruence. }
  destruct (errC_step e y y' Hstep)
    as [[-> _]|[(err & _ & _ & Hf & _)|[(_ & _ & _ & _ & ->)|(err & _ & _ & _ & _ & ->)]]];
    auto. done.
Qed.

Lemma errC_empty_before_send y :
  reachable y → http y ≠ HttpEnd → errC y = None.
Proof.
  intros (cfg & p & lok & w & tr & Hnew & Hrun).
  assert (H0 : http (Run_start lok p w) ≠ HttpEnd → errC (Run_start lok p w) = None).
  { unfold Run_start. by destruct (withoutTeller p), lok. }
  revert Hrun H0. generalize (Run_start lok p w).
  induction tr as [|e tr IH]; simpl; intros y0 Hrun H0.
  - by simplify_eq.
  - destruct (step e y0) as [y1| |] eqn:Hstep; try done.
    eauto using errC_empty_step.
Qed.

(** X20: after [Shutdown], as long as the process has not panicked, an
    accept loop that holds a connection at its select stays there: [done] is
    never closed and [Run] never returns nil. *)
Theorem Run_stuck_after_Shutdown_with_offer tr y c y' :
  reachable y → acceptor y = AOffer c → quit (px (store y)) = true →
  ln (px (store y)) = None →
  run_events tr y = Next y' →
  acceptor y' = AOffer c ∧ done y' = false ∧ returned y' ≠ Some None.
Proof.
  intros Hy Ha Hq Hln Hrun.
  assert (Hacc : acceptor y' = AOffer c ∧ reachable y').
  { revert y Hy Ha Hq Hln Hrun.
    induction tr as [|e tr IH]; simpl; intros y Hy Ha Hq Hln Hrun.
    - by simplify_eq.
    - destruct (step e y) as [y1| |] eqn:Hstep; try done.
      pose proof (inv_reachable y Hy) as Hinv.
      apply (IH y1); [by eapply reachable_step| | | |done].
      + destruct y as [st h a f ht tok ec n d r cl]. simpl in *. subst a.
        destruct e; simpl in Hstep; try done.
        * unfold enter_Accept in Hstep. simpl in Hstep. by rewrite Hln in Hstep.
        * destruct h; try done.
          unfold enter_Accept in Hstep. simpl in Hstep. by rewrite Hln in Hstep.
        * destruct h; try done. by case_match; simplify_eq.
        * destruct h; try done. by simplify_eq.
        * destruct h; try done. simpl in *. by case_match; simplify_eq.
        * destruct h; try done.
          by apply exec_Next in Hstep as (r' & st' & Hst' & [= <-]).
        * by apply exec_Next in Hstep as (? & st' & Hf & [= <-]).
        * destruct h; try done.
          by apply exec_Next in Hstep as (? & st' & Haw & [= <-]).
        * destruct h; try done. simpl in *. by case_match; simplify_eq.
        * destruct f; try done. simpl in *. by case_match; simplify_eq.
        * destruct ht; try done. simpl in *.
          by destruct r0 as [err|]; [case_match|]; simplify_eq.
        * destruct ht, ec; try done. simpl in *. by simplify_eq.
        * simpl in *. by destruct n, d; simplify_eq.
        * simpl in *. destruct r; try done. destruct by_done.
          -- destruct d; try done. case_match; simplify_eq/=; [done|].
             by apply exec_Next in Hstep as (? & st' & Hlog & [= <-]).
          -- destruct ec; try done. case_match; simplify_eq/=; [done|].
             by apply exec_Next in Hstep as (? & st' & Hlog & [= <-]).
        * by apply exec_Next in Hstep as (? & st' & Hsh & [= <-]).
        * simpl in *. by destruct (call c0 st) as [[| |] st'] eqn:Hc; simplify_eq/=.
      + destruct (px_step e y y1 Hinv Hstep) as [->|[(sp & t & ->)|[->|[Hf _]]]];
          simpl; congruence.
      + destruct (px_step e y y1 Hinv Hstep) as [->|[(sp & t & ->)|[->|[Hf _]]]];
          simpl; congruence. }
  destruct Hacc as [Ha' Hinv%inv_reachable]. split; [done|].
  destruct Hinv as (_ & _ & _ & _ & Hwg & Hdone & Hr & _).
  assert (Hd : done y' = false).
  { destruct (done y'); [|done]. specialize (Hdone eq_refl).
    rewrite Hdone in Hwg. unfold running_workers in Hwg. rewrite Ha' in Hwg.
    destruct (handler y'), (funnel y'), (http y'); simpl in Hwg; done. }
  split; [done|]. intros Hret%Hr. congruence.
Qed.
End MoreGoroutineResults.


Section ShutdownResults.
Context {W : Type} `{!Daemon W}.
Implicit Types (s : St W) (y : Sys W) (e : Event) (w : W).

Lemma run_events_cons e tr y y1 :
  step e y = Next y1 → run_events (e :: tr) y = run_events tr y1.
Proof. intros Hstep. simpl. by rewrite Hstep. Qed.

(** Runs the first event of the run in the goal. *)
Ltac run_step :=
  match goal with
  | |- context [run_events (?e :: ?tr) ?y0] =>
      let r := eval lazy in (step e y0) in
      lazymatch r with
      | Next ?y1 =>
          rewrite (run_events_cons e tr y0 y1 (eq_refl : step e y0 = Next y1))
      end
  end.

#[local] Opaque Shutdown.

(** X19: with the accept loop inside [Accept] and the handler loop at
    its outer select, [Shutdown] lets every goroutine return; [wg.Wait()]
    returns, [done] is closed and [Run] returns nil, whatever the HTTP layer's
    [Run] returned. *)
Theorem Shutdown_lets_Run_return_nil y r :
  reachable y → returned y = None → quit (px (store y)) = false →
  handler y = HOuter → acceptor y = AAccept → funnel y = FServe →
  http y = HttpServe →
  ∃ y',
    run_events
      [EShutdown; EAcceptErr; EHandlerQuit; EFunnelQuit; EHttpReturn r; EJoin;
       ERunReturn true] y = Next y'
    ∧ returned y' = Some None ∧ errC y' = errC y
    ∧ handler y' = HEnd ∧ acceptor y' = AEnd ∧ funnel y' = FEnd
    ∧ http y' = HttpEnd.
Proof.
  intros Hinv%inv_reachable Hret Hq Hh Ha Hf Hht.
  destruct Hinv as (Hmu & _ & _ & _ & Hwg & Hdone & _).
  destruct y as [[[wt l q sp t m] ts w lg] h a f ht tok ec n d rt cl].
  unfold running_workers in Hwg.
  simpl in Hmu, Hret, Hq, Hh, Ha, Hf, Hht, Hwg, Hdone. subst.
  destruct d; [by specialize (Hdone eq_refl)|].
  erewrite run_events_cons;
    [|unfold step, exec; cbn [store];
      rewrite Shutdown_effect by done; cbn; reflexivity].
  destruct r as [err|], wt; do 6 run_step;
    (eexists; split; [reflexivity|cbn; split_and!; reflexivity]).
Qed.

(** X21: the HTTP worker tests [quit] before its send, not with it: when
    [Shutdown] is called after the worker's select took [default], the error
    is still sent to [errC], and [Run] can return it although [quit] is
    closed. *)
Theorem http_error_sent_after_quit y err :
  reachable y → http y = HttpSend err → returned y = None →
  quit (px (store y)) = false →
  ∃ y',
    run_events [EShutdown; EHttpSend; ERunReturn false] y = Next y'
    ∧ quit (px (store y')) = true
    ∧ returned y' = Some (Some err) ∧ errC y' = None.
Proof.
  intros Hy Hht Hret Hq.
  assert (Hec : errC y = None).
  { apply errC_empty_before_send; [done|congruence]. }
  apply inv_reachable in Hy. destruct Hy as (Hmu & _).
  destruct y as [[[wt l q sp t m] ts w lg] h a f ht tok ec n d rt cl].
  simpl in Hht, Hret, Hq, Hec, Hmu. subst.
  erewrite run_events_cons;
    [|unfold step, exec; cbn [store];
      rewrite Shutdown_effect by done; cbn; reflexivity].
  destruct wt; do 2 run_step;
    (eexists; split; [reflexivity|cbn; split_and!; reflexivity]).
Qed.
End ShutdownResults.

(** * Further results on strand *)


Section MoreFunnelResults.
Context {D : Type}.
Implicit Types (subs : list (list (D → D))) (y : Funnel.State (D:=D)) (d : D).

(** X15: once the worker that serves [px.reqC] has returned, no submitted
    function runs any more: the data and the list of executed statements
    stay as they are, and a caller that is at its send stays there, so its
    call of [strand] never returns. *)
Theorem strand_after_worker_quit subs tr y y' :
  Funnel.worker y = Funnel.WEnd → Funnel.run subs tr y = Some y' →
  Funnel.worker y' = Funnel.WEnd
  ∧ Funnel.ran y' = Funnel.ran y ∧ Funnel.data y' = Funnel.data y
  ∧ Funnel.handed y' = Funnel.handed y
  ∧ ∀ i, Funnel.callers y !! i = Some Funnel.CSend →
         Funnel.callers y' !! i = Some Funnel.CSend.
Proof.
  revert y. induction tr as [|e tr IH]; simpl; intros y Hw Hrun.
  - by simplify_eq.
  - destruct (Funnel.step subs e y) as [y1|] eqn:Hstep; [|done].
    assert (Funnel.worker y1 = Funnel.WEnd
            ∧ Funnel.ran y1 = Funnel.ran y ∧ Funnel.data y1 = Funnel.data y
            ∧ Funnel.handed y1 = Funnel.handed y
            ∧ ∀ i, Funnel.callers y !! i = Some Funnel.CSend →
                   Funnel.callers y1 !! i = Some Funnel.CSend)
      as (Hw1 & Hran & Hdata & Hh & Hc).
    { destruct y as [dt cs wk q hd cq rn]. simpl in *. subst wk.
      destruct e as [i| |i| |]; simpl in Hstep; try done.
      - destruct (cs !! i) as [[| |]|] eqn:Hi; try done.
        case_bool_decide; simplify_eq/=. split_and!; try done.
        intros j Hj. rewrite list_lookup_insert_ne; [done|congruence].
      - destruct q; simplify_eq/=. done. }
    destruct (IH y1 Hw1 Hrun) as (? & -> & -> & -> & Hc').
    split_and!; auto.
Qed.

(** Running the rest of a submitted function, statement by statement. *)
Lemma strand_run_stmts subs i rest y k :
  Funnel.worker y = Funnel.WReq i k rest →
  ∃ y',
    Funnel.run subs (replicate (length rest) Funnel.Stmt) y = Some y'
    ∧ Funnel.worker y' = Funnel.WReq i (k + length rest) []
    ∧ Funnel.data y' = foldl (λ d a, a d) (Funnel.data y) rest
    ∧ Funnel.callers y' = Funnel.callers y
    ∧ Funnel.closedq y' = Funnel.closedq y
    ∧ Funnel.quitC y' = Funnel.quitC y.
Proof.
  revert y k. induction rest as [|a rest IH]; intros y k Hw; simpl.
  - exists y. rewrite Nat.add_0_r. done.
  - destruct y as [dt cs wk q hd cq rn]. simpl in *. subst wk. simpl.
    edestruct (IH (Funnel.mkState (a dt) cs (Funnel.WReq i (S k) rest) q hd cq
                     (rn ++ [(i, k)])%list) (S k)) as (y' & Hrun & Hw' & Hd & Hc & Hq & Hqc);
      [done|].
    exists y'. simpl in *. rewrite Hrun, Hw', Hd, Hc, Hq, Hqc.
    split_and!; try done. f_equal. lia.
Qed.

(** X18: a caller at its send, with the worker at its select, can be
    served at once: the hand-off, the statements of its function in order,
    the closing of [q] and the caller's return; the data is then what the
    function makes of it and the worker is back at its select. *)
Theorem strand_serves subs i f y :
  Funnel.worker y = Funnel.WSelect →
  Funnel.callers y !! i = Some Funnel.CSend → subs !! i = Some f →
  ∃ y',
    Funnel.run subs
      (Funnel.Recv i :: replicate (length f) Funnel.Stmt
         ++ [Funnel.Stmt; Funnel.Return i])%list y = Some y'
    ∧ Funnel.callers y' = <[i := Funnel.CDone]> (Funnel.callers y)
    ∧ Funnel.worker y' = Funnel.WSelect
    ∧ Funnel.data y' = foldl (λ d a, a d) (Funnel.data y) f.
Proof.
  intros Hw Hc Hf. destruct y as [dt cs wk q hd cq rn]. simpl in *. subst wk.
  rewrite Hc, Hf.
  edestruct (strand_run_stmts subs i f
               (Funnel.mkState dt (<[i := Funnel.CWait]> cs) (Funnel.WReq i 0 f) q
                  (hd ++ [i])%list cq rn) 0%nat)
    as (y' & Hrun & Hw' & Hd & Hcs & Hq & Hqc); [done|].
  assert (Hrun' : ∀ tr2,
    Funnel.run subs (replicate (length f) Funnel.Stmt ++ tr2)%list
      (Funnel.mkState dt (<[i := Funnel.CWait]> cs) (Funnel.WReq i 0 f) q
         (hd ++ [i])%list cq rn)
    = Funnel.run subs tr2 y').
  { intros tr2. revert Hrun. generalize (replicate (length f) (@Funnel.Stmt)).
    intros l. generalize (Funnel.mkState dt (<[i := Funnel.CWait]> cs)
                            (Funnel.WReq i 0 f) q (hd ++ [i])%list cq rn).
    induction l as [|e l IH]; simpl; intros y0 Hrun.
    - by simplify_eq.
    - destruct (Funnel.step subs e y0); [|done]. eauto. }
  rewrite Hrun'. destruct y' as [dt' cs' wk' q' hd' cq' rn']. simpl in *. subst.
  assert (Hi : (<[i := Funnel.CWait]> cs) !! i = Some Funnel.CWait).
  { apply list_lookup_insert_eq. by eapply lookup_lt_Some. }
  simpl. rewrite Hi. rewrite bool_decide_eq_true_2
    by (apply elem_of_app; right; by apply list_elem_of_singleton).
  eexists. split; [reflexivity|]. simpl. rewrite list_insert_insert_eq. done.
Qed.
End MoreFunnelResults.

(** * Concrete runs of the further results *)

Lemma fail_fast_without_session_witness :
  writeWithContext 0%nat 7%nat (start proxy0 mux0)
    = (Ok (Some (errors_New "write failed, session is nil")), start proxy0 mux0)
  ∧ ∃ cf, openStream 5%nat (start proxy0 mux0)
          = (Ok (0, cf, Some (errors_New "session is nil")), start proxy0 mux0)
      ∧ ∀ s', call_closeStream cf s' = (Ok tt, s').
Proof.
  apply (fail_fast_without_session (start proxy0 mux0) 0%nat 7%nat 5%nat);
    by vm_compute.
Defined.

Lemma writeWithContext_delegates_witness :
  writeWithContext 0%nat 7%nat st_closed
  = (Ok (Session_WriteWithContext 0%nat 0%nat 7%nat (world st_closed)).1,
     mkSt (px st_closed) (timers st_closed)
       (Session_WriteWithContext 0%nat 0%nat 7%nat (world st_closed)).2
       (logged st_closed)).
Proof.
  apply (writeWithContext_delegates st_closed 0%nat 0%nat 7%nat); by vm_compute.
Defined.

Lemma openStream_then_close_witness :
  ∃ cf s1,
    openStream 5%nat st_session
      = (Ok ((Session_Sub 0%nat 5%nat (world st_session)).1, cf, None), s1)
    ∧ px s1 = px st_session
    ∧ world s1 = (Session_Sub 0%nat 5%nat (world st_session)).2
    ∧ call_closeStream cf s1
      = (Ok tt,
         mkSt (px st_session) (timers st_session)
           (Session_Unsub 0%nat (Session_Sub 0%nat 5%nat (world st_session)).1
              (Session_Sub 0%nat 5%nat (world st_session)).2)
           (logged st_session
              ++ [Debugln "Open stream:"
                    (Some (Session_Sub 0%nat 5%nat (world st_session)).1)]
              ++ [Debugln "Close stream:"
                    (Some (Session_Sub 0%nat 5%nat (world st_session)).1)])).
Proof.
  apply (openStream_then_close st_session 0%nat 5%nat); by vm_compute.
Defined.

Lemma gateway_call_releases_mutex_witness :
  px (call (CWrite 7%nat) (start proxy0 mux0)).2 = px (start proxy0 mux0).
Proof.
  apply (gateway_call_releases_mutex (CWrite 7%nat) (start proxy0 mux0)).
  by vm_compute.
Defined.

Lemma Shutdown_twice_panics_witness :
  Shutdown (Shutdown st_session).2
  = (Panic "close of closed channel", (Shutdown st_session).2).
Proof.
  apply (Shutdown_twice_panics st_session tt (Shutdown st_session).2);
    by vm_compute.
Defined.

Lemma Shutdown_keeps_session_witness :
  sn (px (store (sys_after (tr_busy ++ [EShutdown])))) = sn (px (store (sys_after tr_busy)))
  ∧ handler (sys_after (tr_busy ++ [EShutdown])) = handler (sys_after tr_busy)
  ∧ quit (px (store (sys_after (tr_busy ++ [EShutdown])))) = true
  ∧ ln (px (store (sys_after (tr_busy ++ [EShutdown])))) = None
  ∧ world (store (sys_after (tr_busy ++ [EShutdown])))
    = match sn (px (store (sys_after tr_busy))) with
      | Some p => Session_Close p (world (store (sys_after tr_busy)))
      | None => world (store (sys_after tr_busy))
      end
  ∧ ∀ p m, sn (px (store (sys_after tr_busy))) = Some p →
      (write m (store (sys_after (tr_busy ++ [EShutdown])))).1 = Ok None.
Proof.
  apply (Shutdown_keeps_session (sys_after tr_busy)).
  - apply (reachable_sys_after tr_busy). by vm_compute.
  - by vm_compute.
Defined.

Lemma pingTimer_stays_set_witness :
  is_Some (pingTimer (px (store (sys_after (tr_busy ++ [ESessionEnd RunFirst; ERecycle])))))
  ∧ ∃ s'', ResetPingTimer (store (sys_after (tr_busy ++ [ESessionEnd RunFirst; ERecycle])))
           = (Ok tt, s'').
Proof.
  apply (pingTimer_stays_set [ESessionEnd RunFirst; ERecycle] (sys_after tr_busy)).
  - apply (reachable_sys_after tr_busy). by vm_compute.
  - by vm_compute.
  - exists 0%nat. by vm_compute.
Defined.

Lemma admission_recycles_witness :
  ∃ y', run_events [ESessionEnd RunFirst; ERecycle] (sys_after tr_busy) = Next y'
    ∧ handler y' = HOuter ∧ execFuncC y' = true ∧ sn (px (store y')) = None.
Proof.
  assert (Hr : reachable (sys_after tr_busy)).
  { apply (reachable_sys_after tr_busy). by vm_compute. }
  apply (proj2 (admission_recycles (sys_after tr_busy) Hr ltac:(by vm_compute))
           1%nat 0%nat). by vm_compute.
Defined.

Lemma executor_token_discipline_witness :
  execFuncC (sys_after tr_inner) = true
  ∧ ∃ y', step ETakeExec (sys_after tr_inner) = Next y' ∧ handler y' = HExec 1%nat
          ∧ execFuncC y' = false.
Proof.
  assert (Hr : reachable (sys_after tr_inner)).
  { apply (reachable_sys_after tr_inner). by vm_compute. }
  exact (executor_token_discipline (sys_after tr_inner) Hr).
Defined.

Lemma watchdog_closes_connection_witness :
  ∃ t tm,
    pingTimer (px (store (sys_after (tr_busy ++ [EFire 0%nat])))) = Some t
    ∧ timers (store (sys_after (tr_busy ++ [EFire 0%nat]))) !! t = Some tm
    ∧ tick tm = true
    ∧ timers (store (sys_after tr_timeout)) !! t = Some (mkTimer (armed tm) false)
    ∧ world (store (sys_after tr_timeout))
      = (Session_Run 0%nat
           (Conn_Close 1%nat (world (store (sys_after (tr_busy ++ [EFire 0%nat])))))).2
    ∧ sn (px (store (sys_after tr_timeout))) = None
    ∧ handler (sys_after tr_timeout) = HBack.
Proof.
  apply (watchdog_closes_connection (sys_after (tr_busy ++ [EFire 0%nat]))
           1%nat 0%nat (sys_after tr_timeout)).
  - apply (reachable_sys_after (tr_busy ++ [EFire 0%nat])). by vm_compute.
  - by vm_compute.
  - by vm_compute.
Defined.

Lemma accept_loop_panics_after_Shutdown_witness :
  acceptor (sys_after (tr_busy ++ [EShutdown])) = AOffer 2%nat
  ∧ step EOfferTimeout (sys_after (tr_busy ++ [EShutdown])) = Crashed
  ∧ (handler (sys_after (tr_busy ++ [EShutdown])) = HOuter →
     step EHandoff (sys_after (tr_busy ++ [EShutdown])) = Crashed).
Proof.
  apply (accept_loop_panics_after_Shutdown (sys_after tr_busy) 2%nat).
  - apply (reachable_sys_after tr_busy). by vm_compute.
  - by vm_compute.
  - by vm_compute.
Defined.

Lemma http_error_suppressed_after_quit_witness :
  quit (px (store (sys_after [EShutdown; EHttpReturn (Some "server closed")]))) = true
  ∧ errC (sys_after [EShutdown; EHttpReturn (Some "server closed")]) = None
  ∧ (∀ err, http (sys_after [EShutdown; EHttpReturn (Some "server closed")])
            ≠ HttpSend err)
  ∧ ∀ err, returned (sys_after [EShutdown; EHttpReturn (Some "server closed")])
           ≠ Some (Some err).
Proof.
  apply (http_error_suppressed_after_quit [EHttpReturn (Some "server closed")]
           (sys_after [EShutdown])).
  - apply (reachable_sys_after [EShutdown]). by vm_compute.
  - by vm_compute.
  - by vm_compute.
  - intros err. by vm_compute.
  - intros err. by vm_compute.
  - by vm_compute.
Defined.

Lemma http_error_sent_after_quit_witness :
  ∃ y',
    run_events [EShutdown; EHttpSend; ERunReturn false]
      (sys_after [EHttpReturn (Some "server closed")]) = Next y'
    ∧ quit (px (store y')) = true
    ∧ returned y' = Some (Some "server closed") ∧ errC y' = None.
Proof.
  apply (http_error_sent_after_quit
           (sys_after [EHttpReturn (Some "server closed")]) "server closed").
  - apply (reachable_sys_after [EHttpReturn (Some "server closed")]). by vm_compute.
  - by vm_compute.
  - by vm_compute.
  - by vm_compute.
Defined.

Lemma Run_stuck_after_Shutdown_with_offer_witness :
  acceptor (sys_after (tr_busy ++ [EShutdown; ESessionEnd RunFirst; ERecycle]))
    = AOffer 2%nat
  ∧ done (sys_after (tr_busy ++ [EShutdown; ESessionEnd RunFirst; ERecycle])) = false
  ∧ returned (sys_after (tr_busy ++ [EShutdown; ESessionEnd RunFirst; ERecycle]))
    ≠ Some None.
Proof.
  apply (Run_stuck_after_Shutdown_with_offer [ESessionEnd RunFirst; ERecycle]
           (sys_after (tr_busy ++ [EShutdown])) 2%nat).
  - apply (reachable_sys_after (tr_busy ++ [EShutdown])). by vm_compute.
  - by vm_compute.
  - by vm_compute.
  - by vm_compute.
  - by vm_compute.
Defined.

Lemma Shutdown_lets_Run_return_nil_witness :
  ∃ y',
    run_events
      [EShutdown; EAcceptErr; EHandlerQuit; EFunnelQuit;
       EHttpReturn (Some "server closed"); EJoin; ERunReturn true]
      (sys_after []) = Next y'
    ∧ returned y' = Some None ∧ errC y' = errC (sys_after [])
    ∧ handler y' = HEnd ∧ acceptor y' = AEnd ∧ funnel y' = FEnd
    ∧ http y' = HttpEnd.
Proof.
  apply (Shutdown_lets_Run_return_nil (sys_after []) (Some "server closed")).
  - apply (reachable_sys_after []). by vm_compute.
  - by vm_compute.
  - by vm_compute.
  - by vm_compute.
  - by vm_compute.
  - by vm_compute.
  - by vm_compute.
Defined.

Lemma Run_nil_after_join_witness :
  handler (sys_after [EShutdown; EAcceptErr; EHandlerQuit; EFunnelQuit;
                      EHttpReturn None; EJoin; ERunReturn true]) = HEnd
  ∧ acceptor (sys_after [EShutdown; EAcceptErr; EHandlerQuit; EFunnelQuit;
                         EHttpReturn None; EJoin; ERunReturn true]) = AEnd
  ∧ funnel (sys_after [EShutdown; EAcceptErr; EHandlerQuit; EFunnelQuit;
                       EHttpReturn None; EJoin; ERunReturn true]) = FEnd
  ∧ http (sys_after [EShutdown; EAcceptErr; EHandlerQuit; EFunnelQuit;
                     EHttpReturn None; EJoin; ERunReturn true]) = HttpEnd.
Proof.
  apply (Run_nil_after_join
           (sys_after [EShutdown; EAcceptErr; EHandlerQuit; EFunnelQuit;
                       EHttpReturn None; EJoin; ERunReturn true])).
  - apply (reachable_sys_after
             [EShutdown; EAcceptErr; EHandlerQuit; EFunnelQuit;
              EHttpReturn None; EJoin; ERunReturn true]). by vm_compute.
  - by vm_compute.
Defined.

Lemma Run_not_nil_before_quit_witness :
  step (ERunReturn true) (sys_after tr_busy) = Disabled.
Proof.
  apply (Run_not_nil_before_quit (sys_after tr_busy)).
  - apply (reachable_sys_after tr_busy). by vm_compute.
  - by vm_compute.
  - by vm_compute.
  - by vm_compute.
Defined.

Lemma strand_counter_witness :
  Funnel.data
    (default (Funnel.init two_increments 0)
       (Funnel.run two_increments (tr_two ++ [Funnel.Stmt; Funnel.Return 0%nat])
          (Funnel.init two_increments 0)))
  = (0 + Z.of_nat 2)%Z.
Proof.
  apply (strand_counter 2 0 (tr_two ++ [Funnel.Stmt; Funnel.Return 0%nat])).
  - by vm_compute.
  - intros [|[|i]] Hi; [by vm_compute..|lia].
Defined.

Lemma strand_after_worker_quit_witness :
  Funnel.worker two_left = Funnel.WEnd
  ∧ Funnel.ran two_left = Funnel.ran two_quit
  ∧ Funnel.data two_left = Funnel.data two_quit
  ∧ Funnel.handed two_left = Funnel.handed two_quit
  ∧ ∀ i, Funnel.callers two_quit !! i = Some Funnel.CSend →
         Funnel.callers two_left !! i = Some Funnel.CSend.
Proof.
  apply (strand_after_worker_quit two_increments [Funnel.Return 1%nat]
           two_quit two_left); by vm_compute.
Defined.

Lemma strand_serves_witness :
  ∃ y',
    Funnel.run two_increments
      (Funnel.Recv 1%nat :: replicate (length [Z.succ]) Funnel.Stmt
         ++ [Funnel.Stmt; Funnel.Return 1%nat])%list
      (Funnel.init two_increments 0) = Some y'
    ∧ Funnel.callers y'
      = <[1%nat := Funnel.CDone]> (Funnel.callers (Funnel.init two_increments 0))
    ∧ Funnel.worker y' = Funnel.WSelect
    ∧ Funnel.data y'
      = foldl (λ d a, a d) (Funnel.data (Funnel.init two_increments 0)) [Z.succ].
Proof.
  apply (strand_serves two_increments 1%nat [Z.succ] (Funnel.init two_increments 0));
    by vm_compute.
Defined.
